(** * n8n-nodes-discord: the bot helpers ([nodes/Discord/bot/helpers.ts])

    A shallow embedding of the helper functions that cross the boundary
    between the workflow node and the bot process, and the properties of
    them that the design document states.

    - JavaScript values that the code only tests for truthiness are a small
      inductive type with its [truthy] function.
    - The process-wide [state] object is a record threaded through the
      functions that mutate it; maps indexed by strings are [gmap string _].
    - Promises are a three-valued type settled at most once; timers and the
      node-ipc callbacks are events delivered to a pending call.
    - The self-rescheduling loops are step functions ([waiting]) iterated
      with fuel against an environment that plays the collaborators. *)

From stdpp Require Import base option list gmap strings pretty.
From Stdlib Require Import ZArith Lia.

Local Open Scope Z_scope.

(** ** JavaScript values and truthiness *)

Inductive JsValue :=
  | JsUndefined
  | JsNull
  | JsBool (b : bool)
  | JsNum (n : Z)
  | JsStr (s : string)
  | JsObject.

(** The empty string is the only falsy string. *)
Definition truthy_str (s : string) : bool := negb (bool_decide (s = "")).

Definition truthy (v : JsValue) : bool :=
  match v with
  | JsUndefined | JsNull => false
  | JsBool b => b
  | JsNum n => negb (n =? 0)
  | JsStr s => truthy_str s
  | JsObject => true
  end.

(** [['a', 'b'].includes(x)] on strings. *)
Definition includes (l : list string) (x : string) : bool :=
  bool_decide (x ∈ l).

(** ** The process state ([./state])

    Modelled from the spec: the module [./state] is imported by the helpers
    but is not part of the sources at hand; its fields are the ones the
    data model lists, with the types the helpers use them at. *)

Record Trigger := {
  active : bool;
  triggerConfig : string;
}.

Record PromptEntry := {
  value : JsValue;
}.

Record ProcessState := {
  webhookHost : string;
  testMode : bool;
  triggers : gmap string Trigger;
  logs : list string;
  ready : bool;
  autoLogs : bool;
  autoLogsChannelId : string;
  promptData : gmap string PromptEntry;
  placeholderMatching : gmap string string;
}.

Definition set_logs (l : list string) (st : ProcessState) : ProcessState :=
  {| webhookHost := webhookHost st; testMode := testMode st;
     triggers := triggers st; logs := l; ready := ready st;
     autoLogs := autoLogs st; autoLogsChannelId := autoLogsChannelId st;
     promptData := promptData st;
     placeholderMatching := placeholderMatching st |}.

Definition set_triggers (t : gmap string Trigger) (st : ProcessState)
  : ProcessState :=
  {| webhookHost := webhookHost st; testMode := testMode st;
     triggers := t; logs := logs st; ready := ready st;
     autoLogs := autoLogs st; autoLogsChannelId := autoLogsChannelId st;
     promptData := promptData st;
     placeholderMatching := placeholderMatching st |}.

Definition set_placeholderMatching (p : gmap string string)
  (st : ProcessState) : ProcessState :=
  {| webhookHost := webhookHost st; testMode := testMode st;
     triggers := triggers st; logs := logs st; ready := ready st;
     autoLogs := autoLogs st; autoLogsChannelId := autoLogsChannelId st;
     promptData := promptData st;
     placeholderMatching := p |}.

(** [state.promptData[id]?.value], with [undefined] for a missing entry. *)
Definition promptValue (st : ProcessState) (id : string) : JsValue :=
  match promptData st !! id with
  | Some e => value e
  | None => JsUndefined
  end.

(** The truthiness of [state.placeholderMatching[id]]. *)
Definition matchingPresent (st : ProcessState) (id : string) : bool :=
  match placeholderMatching st !! id with
  | Some m => truthy_str m
  | None => false
  end.

(** ** The Discord side: messages, the client's channel cache, and the
    calls the helpers make on them, recorded in order. *)

Record Message := {
  msgId : string;
  msgContent : string;
  msgChannelId : string;
  msgAuthorId : string;
}.

(** [client.channels.cache]: the identifiers of the cached channels. *)
Record Client := {
  channelsCache : gset string;
}.

Definition cacheGet (c : Client) (id : string) : bool :=
  bool_decide (id ∈ channelsCache c).

Record PostBody := {
  bodyContent : string;
  bodyChannelId : string;
  bodyPlaceholderId : string;
  bodyUserId : string;
}.

Inductive Effect :=
  | ConsoleLog (text : string)
  | ChannelSend (channelId : string) (text : string)
  (** [message.edit({content, components: []})] *)
  | MessageEditClear (messageId : string) (content : string)
  (** [message.edit({content})] and [message.edit(content)] *)
  | MessageEdit (messageId : string) (content : string)
  | HttpPost (url : string) (body : PostBody) (accept : string).

(** ** addLog *)

Definition LOG_SEP : string := " -  ".

(** The line that [addLog] stores; [now] is [new Date().toISOString()]. *)
Definition logLine (now message : string) : string :=
  now +:+ LOG_SEP +:+ message.

Definition addLog (now message : string) (client : Client)
  (st : ProcessState) : ProcessState * list Effect :=
  let shifted :=
    if 99 <? Z.of_nat (length (logs st)) then drop 1 (logs st)
    else logs st in
  let log := logLine now message in
  let st' := set_logs (shifted ++ [log]) st in
  let mirror :=
    if ready st' && autoLogs st' then
      if cacheGet client (autoLogsChannelId st')
      then [ChannelSend (autoLogsChannelId st') ("**" +:+ log +:+ "**")]
      else []
    else [] in
  (st', ConsoleLog message :: mirror).

(** [addLog] once for every (timestamp, message) pair, in order. *)
Fixpoint addLogs (entries : list (string * string)) (client : Client)
  (st : ProcessState) : ProcessState :=
  match entries with
  | [] => st
  | (now, message) :: rest =>
      addLogs rest client (addLog now message client st).1
  end.

Definition emptyState : ProcessState :=
  {| webhookHost := "http://localhost:5678"; testMode := false;
     triggers := ∅; logs := []; ready := false; autoLogs := false;
     autoLogsChannelId := ""; promptData := ∅; placeholderMatching := ∅ |}.

Definition noClient : Client := {| channelsCache := ∅ |}.

(** ** Promises, timers and the node-ipc channel

    A promise is settled at most once: [resolve] and [reject] on a settled
    promise do nothing. *)

Inductive Promise (A : Type) :=
  | Pending
  | Resolved (v : A)
  | Rejected (reason : string).
Arguments Pending {A}.
Arguments Resolved {A} v.
Arguments Rejected {A} reason.

Definition resolve {A} (v : A) (p : Promise A) : Promise A :=
  match p with Pending => Resolved v | _ => p end.

Definition reject {A} (reason : string) (p : Promise A) : Promise A :=
  match p with Pending => Rejected reason | _ => p end.

Definition settled {A} (p : Promise A) : bool :=
  match p with Pending => false | _ => true end.

(** Optional fields of objects that arrive untyped at run time: [None] is
    [undefined]; the empty string is falsy as well. *)
Definition truthy_field (f : option string) : bool :=
  match f with Some s => truthy_str s | None => false end.

Record ICredentials := {
  clientId : option string;
  token : option string;
  apiKey : option string;
}.

Record IExecutionData := {
  executionId : string;
  placeholderId : string;
  channelId : string;
  executionApiKey : string;
  userId : option string;
}.

Inductive Payload :=
  | NoPayload
  | CredentialsPayload (c : option ICredentials)
  | ExecutionPayload (d : IExecutionData)
  | TriggerPayload (t : option Trigger).

(** What a helper does to the [ipc] object, in order. *)
Inductive IpcCall :=
  | SetRetry (ms : N)
  | ConnectTo (id : string)
  | Emit (type : string) (payload : Payload)
  | On (type : string).

(** The body of a callback handed to [ipc.connectTo]: one [emit] followed by
    one [on] for the same type, whose handler clears the call's timeout and
    settles its promise from the data received. *)
Record Exchange (D A : Type) := {
  exType : string;
  exPayload : Payload;
  exHandler : D → Promise A → Promise A;
}.
Arguments exType {D A} _.
Arguments exPayload {D A} _.
Arguments exHandler {D A} _.

(** A call in flight: its promise, the time left on its [setTimeout] (while
    armed) with what the timer does when it fires, the [connectTo] callback
    until node-ipc runs it, the listener once registered, and the calls made
    on [ipc] so far. *)
Record Call (D A : Type) := {
  promise : Promise A;
  timer : option N;
  onTimeout : Promise A → Promise A;
  connectCb : option (Exchange D A);
  listener : option (Exchange D A);
  ipcLog : list IpcCall;
}.
Arguments promise {D A} _.
Arguments timer {D A} _.
Arguments onTimeout {D A} _.
Arguments connectCb {D A} _.
Arguments listener {D A} _.
Arguments ipcLog {D A} _.

(** What happens to a call from outside: node-ipc runs the [connectTo]
    callback, a message of some type arrives from the bot, time passes. *)
Inductive Event (D : Type) :=
  | Connected
  | Inbound (type : string) (data : D)
  | Elapse (ms : N).
Arguments Connected {D}.
Arguments Inbound {D} type data.
Arguments Elapse {D} ms.

Definition step {D A} (c : Call D A) (e : Event D) : Call D A :=
  match e with
  | Connected =>
      match connectCb c with
      | Some ex =>
          {| promise := promise c; timer := timer c;
             onTimeout := onTimeout c; connectCb := None;
             listener := Some ex;
             ipcLog := ipcLog c ++ [Emit (exType ex) (exPayload ex);
                                    On (exType ex)] |}
      | None => c
      end
  | Inbound type data =>
      match listener c with
      | Some ex =>
          if bool_decide (type = exType ex) then
            {| promise := exHandler ex data (promise c); timer := None;
               onTimeout := onTimeout c; connectCb := connectCb c;
               listener := listener c; ipcLog := ipcLog c |}
          else c
      | None => c
      end
  | Elapse ms =>
      match timer c with
      | Some remaining =>
          if (remaining <=? ms)%N then
            {| promise := onTimeout c (promise c); timer := None;
               onTimeout := onTimeout c; connectCb := connectCb c;
               listener := listener c; ipcLog := ipcLog c |}
          else
            {| promise := promise c; timer := Some (remaining - ms)%N;
               onTimeout := onTimeout c; connectCb := connectCb c;
               listener := listener c; ipcLog := ipcLog c |}
      | None => c
      end
  end.

Definition run {D A} (evs : list (Event D)) (c : Call D A) : Call D A :=
  fold_left step evs c.

(** Total time that passes in a list of events. *)
Fixpoint elapsed {D} (evs : list (Event D)) : N :=
  match evs with
  | [] => 0
  | Elapse ms :: rest => ms + elapsed rest
  | _ :: rest => elapsed rest
  end%N.

(** No message of type [type] arrives in [evs]. *)
Fixpoint silent {D} (type : string) (evs : list (Event D)) : bool :=
  match evs with
  | [] => true
  | Inbound t _ :: rest => negb (bool_decide (t = type)) && silent type rest
  | _ :: rest => silent type rest
  end.

(** node-ipc runs the [connectTo] callback somewhere in [evs]. *)
Fixpoint connects {D} (evs : list (Event D)) : bool :=
  match evs with
  | [] => false
  | Connected :: _ => true
  | _ :: rest => connects rest
  end.

(** ** connection *)

Definition credentialsHandler (data : string) (p : Promise string)
  : Promise string :=
  if includes ["error"; "login"; "different"] data then
    reject
      (if bool_decide (data = "error") then "Invalid credentials"
       else "Already logging in" +:+
            (if bool_decide (data = "different")
             then " with different credentials" else ""))
      p
  else resolve data p.

(** [!credentials || !credentials.token || !credentials.clientId] *)
Definition credentialsMissing (credentials : option ICredentials) : bool :=
  match credentials with
  | None => true
  | Some c => negb (truthy_field (token c)) || negb (truthy_field (clientId c))
  end.

Definition connection (credentials : option ICredentials)
  : Call string string :=
  if credentialsMissing credentials then
    {| promise := Rejected "credentials missing"; timer := None;
       onTimeout := reject "timeout"; connectCb := None;
       listener := None; ipcLog := [] |}
  else
    {| promise := Pending; timer := Some 15000%N;
       onTimeout := reject "timeout";
       connectCb := Some {| exType := "credentials";
                            exPayload := CredentialsPayload credentials;
                            exHandler := credentialsHandler |};
       listener := None;
       ipcLog := [SetRetry 1500; ConnectTo "bot"] |}.

(** ** execution *)

Definition executionHandler (_ : JsValue) (p : Promise bool) : Promise bool :=
  resolve true p.

Definition execution (executionId placeholderId channelId apiKey : string)
  (userId : option string) : Call JsValue bool :=
  {| promise := Pending; timer := Some 15000%N;
     onTimeout := reject "timeout";
     connectCb :=
       Some {| exType := "execution";
               exPayload := ExecutionPayload
                 {| executionId := executionId;
                    placeholderId := placeholderId;
                    channelId := channelId;
                    executionApiKey := apiKey;
                    userId := userId |};
               exHandler := executionHandler |};
     listener := None;
     ipcLog := [ConnectTo "bot"] |}.

(** *** Calls in flight: what the proofs say about them *)

(** The call exchanges [ex]: either its [connectTo] callback has not run
    yet, or its listener is registered. *)
Definition serves {D A} (ex : Exchange D A) (c : Call D A) : Prop :=
  (connectCb c = Some ex ∧ listener c = None)
  ∨ (connectCb c = None ∧ listener c = Some ex).

(** Neither the timer nor the handler changes a settled promise. *)
Definition settlesOnce {D A} (ex : Exchange D A) (c : Call D A) : Prop :=
  (∀ p, settled p = true → onTimeout c p = p)
  ∧ (∀ d p, settled p = true → exHandler ex d p = p).

Definition credentialsExchange (credentials : option ICredentials)
  : Exchange string string :=
  {| exType := "credentials"; exPayload := CredentialsPayload credentials;
     exHandler := credentialsHandler |}.

Definition someCredentials : option ICredentials :=
  Some {| clientId := Some "1042"; token := Some "secret";
          apiKey := Some "key" |}.

Definition executionExchange (d : IExecutionData) : Exchange JsValue bool :=
  {| exType := "execution"; exPayload := ExecutionPayload d;
     exHandler := executionHandler |}.

(** ** getRoles *)

Record IRole := {
  name : string;
  id : string;
}.

(** What may arrive on 'list:roles': an array of roles, or anything else. *)
Inductive RolesData :=
  | RolesArray (roles : list IRole)
  | RolesOther (v : JsValue).

(** Arrays are truthy, also when empty. *)
Definition rolesTruthy (d : RolesData) : bool :=
  match d with
  | RolesArray _ => true
  | RolesOther v => truthy v
  end.

(** The elements of the array that [getRoles] returns: either a role object
    handed through as received, or a [{name, value}] option built here. *)
Inductive INodePropertyOptions :=
  | RoleOption (r : IRole)
  | NamedOption (optionName optionValue : string).

(** [promise.catch((e) => e)], once the promise is settled. *)
Definition caught {A} (ofReason : string → A) (p : Promise A) : option A :=
  match p with
  | Pending => None
  | Resolved v => Some v
  | Rejected reason => Some (ofReason reason)
  end.

Definition rolesRequest : Call RolesData RolesData :=
  {| promise := Pending; timer := Some 5000%N;
     onTimeout := resolve (RolesOther (JsStr ""));
     connectCb := Some {| exType := "list:roles"; exPayload := NoPayload;
                          exHandler := λ data, resolve data |};
     listener := None;
     ipcLog := [SetRetry 1500; ConnectTo "bot"] |}.

Definition endMessage : string :=
  " - Close and reopen this node modal once you have made changes.".

Definition noRolesMessage : string :=
  "Your Discord server has no roles, please add at least one if you want to restrict the trigger to specific users"
  +:+ endMessage.

Definition notEveryone (r : IRole) : Prop := name r ≠ "@everyone".

Global Instance notEveryone_dec r : Decision (notEveryone r).
Proof. unfold notEveryone. apply _. Defined.

(** [credentials] is what [that.getCredentials('discordApi')] settles on;
    [negotiation] and [listing] are what happens to the two calls in turn.
    The result is [None] while one of the awaited promises is pending. *)
Definition getRoles (credentials : option ICredentials)
  (negotiation : list (Event string)) (listing : list (Event RolesData))
  : option (list INodePropertyOptions) :=
  match caught (λ e, e) (promise (run negotiation (connection credentials)))
  with
  | None => None
  | Some res =>
      if negb (includes ["ready"; "already"] res) then
        Some [NamedOption (res +:+ endMessage) "false"]
      else
        match caught (λ e, RolesOther (JsStr e))
                (promise (run listing rolesRequest)) with
        | None => None
        | Some roles =>
            let fallback message := Some [NamedOption message "false"] in
            if rolesTruthy roles then
              match roles with
              | RolesArray l =>
                  let filtered := filter notEveryone l in
                  if negb (length filtered =? 0)%nat
                  then Some (RoleOption <$> filtered)
                  else fallback noRolesMessage
              | RolesOther _ =>
                  fallback ("Something went wrong" +:+ endMessage)
              end
            else fallback "Unexpected error"
        end
  end.

(** ** triggerWorkflow *)

(** How the HTTP request ends: with an answer of some status, or without
    one (no connection, no answer). *)
Inductive HttpResult :=
  | HttpResponse (status : Z)
  | HttpError.

(** [axios.post] is called without a [validateStatus] of its own, so the
    default of axios decides: a status from 200 to 299 resolves the
    promise with the response object, any other status rejects it. *)
Definition validateStatus (status : Z) : bool :=
  (200 <=? status) && (status <? 300).

(** The promise of [axios.post] is rejected, so that the [catch] handler
    runs and [res] is [undefined]. *)
Definition postRejected (http : HttpResult) : bool :=
  match http with
  | HttpResponse status => negb (validateStatus status)
  | HttpError => true
  end.

(** What a call of [triggerWorkflow] leaves behind: the state, the request
    made, the calls on [ipc], the webhook whose [connectTo] callback is
    waiting to be run by node-ipc (if any), and the value resolved. *)
Record Dispatch := {
  dState : ProcessState;
  dEffects : list Effect;
  dIpc : list IpcCall;
  dConnectCb : option string;
  dResult : bool;
}.

Definition webhookUrl (st : ProcessState) (webhookId : string) : string :=
  webhookHost st +:+ "/webhook" +:+ (if testMode st then "-test" else "")
  +:+ "/" +:+ webhookId +:+ "/webhook".

Definition deactivate (t : Trigger) : Trigger :=
  {| active := false; triggerConfig := triggerConfig t |}.

(** The [catch] handler, on the state as it is when the request fails. *)
Definition onPostError (webhookId : string) (st : ProcessState)
  : ProcessState * list IpcCall * option string :=
  match triggers st !! webhookId with
  | Some t =>
      if negb (testMode st) then
        (set_triggers (<[webhookId := deactivate t]> (triggers st)) st,
         [ConnectTo "bot"], Some webhookId)
      else (st, [], None)
  | None => (st, [], None)
  end.

(** The callback handed to [ipc.connectTo] by the [catch] handler, on the
    state as it is when node-ipc runs it. *)
Definition triggerCallback (webhookId : string) (st : ProcessState)
  : list IpcCall :=
  [Emit "trigger" (TriggerPayload (triggers st !! webhookId))].

(** [inflight] is what the collaborators do to the state while the request
    is awaited. *)
Definition triggerWorkflow (webhookId : string) (message : Message)
  (placeholderId : string) (http : HttpResult)
  (inflight : ProcessState → ProcessState) (st : ProcessState) : Dispatch :=
  let request :=
    HttpPost (webhookUrl st webhookId)
      {| bodyContent := msgContent message;
         bodyChannelId := msgChannelId message;
         bodyPlaceholderId := placeholderId;
         bodyUserId := msgAuthorId message |}
      "application/json" in
  let st1 := inflight st in
  if postRejected http then
    let '(st2, calls, cb) := onPostError webhookId st1 in
    {| dState := st2; dEffects := [request]; dIpc := calls;
       dConnectCb := cb; dResult := false |}
  else
    {| dState := st1; dEffects := [request]; dIpc := [];
       dConnectCb := None; dResult := true |}.

(** The calls on [ipc] once node-ipc has run the pending callback. *)
Definition dispatchedIpc (d : Dispatch) : list IpcCall :=
  dIpc d ++ match dConnectCb d with
            | Some webhookId => triggerCallback webhookId (dState d)
            | None => []
            end.

Definition someMessage : Message :=
  {| msgId := "900"; msgContent := "!run"; msgChannelId := "77";
     msgAuthorId := "5" |}.

Definition liveState : ProcessState :=
  set_triggers {[ "hook" := {| active := true; triggerConfig := "cfg" |} ]}
    emptyState.

(** ** pollingPromptData

    The loop only reads what its collaborators write, so they are a world
    given as a function of time (in ms): the process state and the client's
    cache at that time, and how long a Discord call started then takes. *)

Record World := {
  stateAt : N → ProcessState;
  clientAt : N → Client;
  latency : N → N;
}.

(** The loop between two runs of [waiting]: the counter [i], the time at
    which [waiting] runs next (or at which the loop ended), the promise,
    what was done on Discord so far, and whether a timer is armed. *)
Record Poll := {
  pollI : Z;
  pollClock : N;
  pollPromise : Promise bool;
  pollEffects : list Effect;
  pollArmed : bool;
}.

(** [` (${seconds - i}s)`]. Numbers are integers here; the difference and
    its decimal text are those of the code as long as the numbers are safe
    integers, at most [MAX_SAFE_INTEGER] in absolute value (beyond, the
    doubles of the code round, and print with an exponent from 1e21). *)
Definition countdown (seconds i : Z) : string :=
  " (" +:+ pretty (seconds - i) +:+ "s)".

Definition pollWaiting (w : World) (message : Message) (content : string)
  (seconds : Z) (p : Poll) : Poll :=
  let now := pollClock p in
  let hasValue := truthy (promptValue (stateAt w now) (msgId message)) in
  if hasValue || (negb (seconds =? 0) && (seconds <? pollI p)) then
    if negb hasValue then
      let edited := (now + latency w now)%N in
      if cacheGet (clientAt w edited) (msgChannelId message) then
        {| pollI := pollI p; pollClock := (edited + latency w edited)%N;
           pollPromise := resolve true (pollPromise p);
           pollEffects := pollEffects p ++
             [MessageEditClear (msgId message) content;
              ChannelSend (msgChannelId message) "Timeout reached"];
           pollArmed := false |}
      else
        {| pollI := pollI p; pollClock := edited;
           pollPromise := resolve true (pollPromise p);
           pollEffects := pollEffects p ++
             [MessageEditClear (msgId message) content];
           pollArmed := false |}
    else
      {| pollI := pollI p; pollClock := now;
         pollPromise := resolve true (pollPromise p);
         pollEffects := pollEffects p; pollArmed := false |}
  else if negb (seconds =? 0) && negb hasValue then
    {| pollI := pollI p + 1;
       pollClock := (now + latency w now + 1000)%N;
       pollPromise := pollPromise p;
       pollEffects := pollEffects p ++
         [MessageEdit (msgId message) (content +:+ countdown seconds (pollI p))];
       pollArmed := true |}
  else
    {| pollI := pollI p + 1; pollClock := (now + 1000)%N;
       pollPromise := pollPromise p; pollEffects := pollEffects p;
       pollArmed := true |}.

(** At most [ticks] runs of [waiting], each when its timer fires. *)
Fixpoint pollRun (w : World) (message : Message) (content : string)
  (seconds : Z) (ticks : nat) (p : Poll) : Poll :=
  match ticks with
  | O => p
  | S n =>
      if pollArmed p
      then pollRun w message content seconds n
             (pollWaiting w message content seconds p)
      else p
  end.

(** The loop started at time [start], after at most [ticks] runs of
    [waiting] (the first of which is immediate). *)
Definition pollingPromptData (w : World) (message : Message)
  (content : string) (seconds : Z) (start : N) (ticks : nat) : Poll :=
  pollRun w message content seconds ticks
    {| pollI := 1; pollClock := start; pollPromise := Pending;
       pollEffects := []; pollArmed := true |}.

Definition hasValueAt (w : World) (message : Message) (t : N) : bool :=
  truthy (promptValue (stateAt w t) (msgId message)).

(** ** placeholderLoading *)

(** The loop between two timers: the counter [i], the process state, the
    edits made so far, and whether a timer is armed. *)
Record Loader := {
  loadI : Z;
  loadState : ProcessState;
  loadEffects : list Effect;
  loadArmed : bool;
}.

(** [let content = txt + ''; for (let j = 0; j < i; j++) content += '.'] *)
Definition withDots (txt : string) (i : Z) : string :=
  Nat.iter (Z.to_nat i) (λ content, content +:+ ".") (txt +:+ "").

Definition loadWaiting (placeholder : Message) (placeholderMatchingId : string)
  (txt : string) (l : Loader) : Loader :=
  let i1 := loadI l + 1 in
  let i2 := if 3 <? i1 then 0 else i1 in
  let content := withDots txt i2 in
  if negb (matchingPresent (loadState l) placeholderMatchingId) then
    {| loadI := i2; loadState := loadState l;
       loadEffects := loadEffects l ++ [MessageEdit (msgId placeholder) txt];
       loadArmed := false |}
  else
    {| loadI := i2; loadState := loadState l;
       loadEffects := loadEffects l
                      ++ [MessageEdit (msgId placeholder) content];
       loadArmed := true |}.

(** The callback of the 800 ms timer. *)
Definition loadTimer (placeholder : Message) (placeholderMatchingId : string)
  (txt : string) (l : Loader) : Loader :=
  if matchingPresent (loadState l) placeholderMatchingId
  then loadWaiting placeholder placeholderMatchingId txt l
  else
    {| loadI := loadI l; loadState := loadState l;
       loadEffects := loadEffects l ++ [MessageEdit (msgId placeholder) txt];
       loadArmed := false |}.

Definition placeholderLoading (placeholder : Message)
  (placeholderMatchingId : string) (txt : string) (st : ProcessState)
  : Loader :=
  loadWaiting placeholder placeholderMatchingId txt
    {| loadI := 0;
       loadState :=
         set_placeholderMatching
           (<[placeholderMatchingId := msgId placeholder]>
              (placeholderMatching st)) st;
       loadEffects := []; loadArmed := true |}.

Definition interfere (f : ProcessState → ProcessState) (l : Loader) : Loader :=
  {| loadI := loadI l; loadState := f (loadState l);
     loadEffects := loadEffects l; loadArmed := loadArmed l |}.

(** The timers that fire after the first run of [waiting]: before the timer
    numbered [k] fires (while the edit is awaited and the 800 ms pass), the
    collaborators turn the state into [env k] of it. *)
Fixpoint loadRun (placeholder : Message) (placeholderMatchingId : string)
  (txt : string) (env : nat → ProcessState → ProcessState)
  (k timers : nat) (l : Loader) : Loader :=
  match timers with
  | O => l
  | S n =>
      if loadArmed l
      then loadRun placeholder placeholderMatchingId txt env (S k) n
             (loadTimer placeholder placeholderMatchingId txt
                (interfere (env k) l))
      else l
  end.

(** The state after the first [k] interferences, from the state [st] that
    the first run of [waiting] left: the timer numbered [k] (from 0) finds
    [envState env (S k) st]. *)
Fixpoint envState (env : nat → ProcessState → ProcessState) (k : nat)
  (st : ProcessState) : ProcessState :=
  match k with
  | O => st
  | S n => env n (envState env n st)
  end.

(** *** Worlds and collaborators to run the loops against *)

Definition answeredState : ProcessState :=
  {| webhookHost := "http://localhost:5678"; testMode := false;
     triggers := ∅; logs := []; ready := true; autoLogs := false;
     autoLogsChannelId := "";
     promptData := {[ "900" := {| value := JsStr "yes" |} ]};
     placeholderMatching := ∅ |}.

(** A world in which the prompt of message 900 is answered 1500 ms in. *)
Definition answeredWorld : World :=
  {| stateAt := λ t, if (t <? 1500)%N then emptyState else answeredState;
     clientAt := λ _, {| channelsCache := {[ "77" ]} |};
     latency := λ _, 0%N |}.

(** A world in which nobody ever answers. *)
Definition silentWorld : World :=
  {| stateAt := λ _, emptyState;
     clientAt := λ _, {| channelsCache := {[ "77" ]} |};
     latency := λ _, 5%N |}.

(** The same, with a client that has no channel cached. *)
Definition uncachedWorld : World :=
  {| stateAt := λ _, emptyState;
     clientAt := λ _, noClient;
     latency := λ _, 5%N |}.

(** The edit that the run numbered [j] (from 1) of [waiting] makes. *)
Definition frame (placeholder : Message) (txt : string) (j : nat) : Effect :=
  MessageEdit (msgId placeholder) (withDots txt (Z.of_nat j mod 4)).

(** The collaborators delete the entry while the timer numbered [k] is
    pending, and do nothing otherwise. *)
Definition stopAt (k : nat) : nat → ProcessState → ProcessState :=
  λ j st, if (j =? k)%nat
          then set_placeholderMatching (delete "ph" (placeholderMatching st)) st
          else st.

(** ** getChannels *)

(** An element of the array that arrives on 'list:channels'. *)
Record IChannel := {
  channelName : string;
  channelValue : string;
}.

(** What may arrive on 'list:channels': an array, or anything else. *)
Inductive ChannelsData :=
  | ChannelsArray (channels : list IChannel)
  | ChannelsOther (v : JsValue).

Definition channelsTruthy (d : ChannelsData) : bool :=
  match d with
  | ChannelsArray _ => true
  | ChannelsOther v => truthy v
  end.

(** A [{name, value}] object as received is an option as it stands. *)
Definition channelOption (c : IChannel) : INodePropertyOptions :=
  NamedOption (channelName c) (channelValue c).

Definition channelsRequest : Call ChannelsData ChannelsData :=
  {| promise := Pending; timer := Some 5000%N;
     onTimeout := resolve (ChannelsOther (JsStr ""));
     connectCb := Some {| exType := "list:channels"; exPayload := NoPayload;
                          exHandler := λ data, resolve data |};
     listener := None;
     ipcLog := [SetRetry 1500; ConnectTo "bot"] |}.

Definition noChannelsMessage : string :=
  "Your Discord server has no text channels, please add at least one text channel"
  +:+ endMessage.

Definition getChannels (credentials : option ICredentials)
  (negotiation : list (Event string)) (listing : list (Event ChannelsData))
  : option (list INodePropertyOptions) :=
  match caught (λ e, e) (promise (run negotiation (connection credentials)))
  with
  | None => None
  | Some res =>
      if negb (includes ["ready"; "already"] res) then
        Some [NamedOption (res +:+ endMessage) "false"]
      else
        match caught (λ e, ChannelsOther (JsStr e))
                (promise (run listing channelsRequest)) with
        | None => None
        | Some channels =>
            let fallback message := Some [NamedOption message "false"] in
            if channelsTruthy channels then
              match channels with
              | ChannelsArray l =>
                  if negb (length l =? 0)%nat
                  then Some (channelOption <$> l)
                  else fallback noChannelsMessage
              | ChannelsOther _ => fallback noChannelsMessage
              end
            else fallback "Unexpected error"
        end
  end.

(** ** ipcRequest *)

(** No timer is armed: [onTimeout] is never run. *)
Definition ipcRequest {D} (type : string) (parameters : Payload) : Call D D :=
  {| promise := Pending; timer := None;
     onTimeout := λ p, p;
     connectCb := Some {| exType := type; exPayload := parameters;
                          exHandler := λ data, resolve data |};
     listener := None;
     ipcLog := [SetRetry 1500; ConnectTo "bot"] |}.

(** *** Further names for the proofs *)

Definition rolesExchange : Exchange RolesData RolesData :=
  {| exType := "list:roles"; exPayload := NoPayload;
     exHandler := λ data, resolve data |}.

Definition channelsExchange : Exchange ChannelsData ChannelsData :=
  {| exType := "list:channels"; exPayload := NoPayload;
     exHandler := λ data, resolve data |}.

Definition requestExchange {D} (type : string) (parameters : Payload)
  : Exchange D D :=
  {| exType := type; exPayload := parameters;
     exHandler := λ data, resolve data |}.

(** The calls that a pending [connectTo] callback makes when it runs. *)
Definition callbackCalls {D A} (ex : Exchange D A) : list IpcCall :=
  [Emit (exType ex) (exPayload ex); On (exType ex)].

(** What the loops may leave behind: a promise that is pending with a timer
    armed, or resolved true with none. *)
Definition pollSettledOrArmed (p : Poll) : Prop :=
  (pollArmed p = true ∧ pollPromise p = Pending)
  ∨ (pollArmed p = false ∧ pollPromise p = Resolved true).

(** [Number.MAX_SAFE_INTEGER], 2^53 - 1. *)
Definition MAX_SAFE_INTEGER : Z := 9007199254740991.

(** A world in which the prompt of message 900 always has the value [v]. *)
Definition valueWorld (v : JsValue) : World :=
  {| stateAt := λ _,
       {| webhookHost := "http://localhost:5678"; testMode := false;
          triggers := ∅; logs := []; ready := true; autoLogs := false;
          autoLogsChannelId := "";
          promptData := {[ "900" := {| value := v |} ]};
          placeholderMatching := ∅ |};
     clientAt := λ _, {| channelsCache := {[ "77" ]} |};
     latency := λ _, 0%N |}.

(** The countdown edit of the run numbered [k] (from 1) of [waiting]. *)
Definition countdownEdit (message : Message) (content : string)
  (seconds : Z) (k : nat) : Effect :=
  MessageEdit (msgId message) (content +:+ countdown seconds (Z.of_nat k)).

(** An edit of [message], or the timeout notice on its channel. *)
Definition onMessage (message : Message) (e : Effect) : Prop :=
  match e with
  | MessageEdit target _ | MessageEditClear target _ => target = msgId message
  | ChannelSend target text =>
      target = msgChannelId message ∧ text = "Timeout reached"
  | _ => False
  end.

(** An edit of the placeholder to the base text with at most three dots. *)
Definition dottedEdit (placeholder : Message) (txt : string) (e : Effect)
  : Prop :=
  ∃ d, 0 <= d <= 3 ∧ e = MessageEdit (msgId placeholder) (withDots txt d).

(** * Properties *)

(** ** addLog *)

Lemma addLog_logs now message client st :
  logs (addLog now message client st).1 =
  (if 99 <? Z.of_nat (length (logs st)) then drop 1 (logs st) else logs st)
    ++ [logLine now message].
Proof. reflexivity. Qed.

Lemma addLog_length_le now message client st :
  (length (logs st) <= 100)%nat →
  (length (logs (addLog now message client st).1) <= 100)%nat.
Proof.
  intros Hle. rewrite addLog_logs.
  destruct (Z.ltb_spec 99 (Z.of_nat (length (logs st))));
    rewrite length_app; simpl; [rewrite length_drop|]; lia.
Qed.

(** The logs after a batch are the last 100 of everything appended. *)
Lemma addLogs_logs entries : ∀ client st,
  (length (logs st) <= 100)%nat →
  logs (addLogs entries client st) =
  let all := logs st ++ map (λ e, logLine e.1 e.2) entries in
  drop (length all - 100) all.
Proof.
  induction entries as [|[now message] rest IH]; intros client st Hle.
  - simpl. rewrite app_nil_r.
    replace (length (logs st) - 100)%nat with 0%nat by lia. done.
  - cbn [addLogs]. rewrite IH by (by apply addLog_length_le).
    rewrite addLog_logs. cbn zeta. cbn [map fst snd].
    set (new := logLine now message).
    set (tl := map _ rest).
    destruct (Z.ltb_spec 99 (Z.of_nat (length (logs st)))) as [Hfull|Hroom].
    + assert (Hlen : length (logs st) = 100%nat) by lia.
      destruct (logs st) as [|old l]; [simpl in Hlen; lia|].
      simpl in Hlen.
      change (drop 1 (old :: l)) with l.
      rewrite <- (app_assoc l [new] tl).
      change ((old :: l) ++ new :: tl) with ([old] ++ (l ++ [new] ++ tl)).
      set (body := l ++ [new] ++ tl).
      assert (Hb : (100 <= length body)%nat).
      { unfold body. rewrite !length_app. simpl. lia. }
      rewrite length_app. simpl length.
      replace (1 + length body - 100)%nat
        with (length [old] + (length body - 100))%nat by (simpl; lia).
      by rewrite drop_app_add'.
    + rewrite <- (app_assoc (logs st) [new] tl). done.
Qed.

(** C3. Starting from at most 100 stored lines, [addLog] keeps at most 100:
    the new line is appended last, the oldest line is dropped exactly when
    100 lines are already stored, and nothing is dropped otherwise. In
    particular 101 calls from an empty log leave the lines of the last 100
    calls, in order: the first line appended is the one evicted. *)
Theorem addLog_bounded_fifo now message client st :
  (length (logs st) <= 100)%nat →
  let st' := (addLog now message client st).1 in
  (length (logs st') <= 100)%nat
  ∧ last (logs st') = Some (logLine now message)
  ∧ (length (logs st) = 100%nat →
     logs st' = drop 1 (logs st) ++ [logLine now message])
  ∧ ((length (logs st) < 100)%nat →
     logs st' = logs st ++ [logLine now message])
  ∧ (∀ first rest c st0,
       logs st0 = [] → length rest = 100%nat →
       let final := addLogs (first :: rest) c st0 in
       length (logs final) = 100%nat
       ∧ logs final = map (λ e, logLine e.1 e.2) rest).
Proof.
  intros Hle st'. split; [by apply addLog_length_le|].
  subst st'. rewrite addLog_logs. split; [by rewrite last_snoc|].
  split; [|split].
  - intros Hfull. rewrite Hfull. done.
  - intros Hroom.
    destruct (Z.ltb_spec 99 (Z.of_nat (length (logs st)))); [lia|done].
  - intros first rest c st0 Hempty Hrest final.
    assert (Hfinal : logs final = map (λ e, logLine e.1 e.2) rest).
    { subst final. rewrite addLogs_logs by (rewrite Hempty; simpl; lia).
      cbn zeta. rewrite Hempty. cbn [app map length].
      rewrite length_map, Hrest. done. }
    split; [|done]. by rewrite Hfinal, length_map.
Qed.

Lemma addLog_bounded_fifo_witness :
  (length (logs emptyState) <= 100)%nat
  ∧ (length (logs (addLog "t" "m" noClient emptyState).1) <= 100)%nat
  ∧ logs (addLogs (("t0", "first") :: replicate 100 ("t", "m")) noClient
            emptyState)
    = replicate 100 (logLine "t" "m").
Proof.
  split; [simpl; lia|].
  pose proof (addLog_bounded_fifo "t" "m" noClient emptyState) as H.
  destruct H as (Hlen & _ & _ & _ & Hbatch); [simpl; lia|].
  split; [exact Hlen|].
  destruct (Hbatch ("t0", "first") (replicate 100 ("t", "m")) noClient
              emptyState eq_refl eq_refl) as [_ ->].
  reflexivity.
Defined.

(** ** Calls in flight: general facts *)

Section CallFacts.
Context {D A : Type}.
Implicit Types (c : Call D A) (ex : Exchange D A) (evs : list (Event D)).

Lemma run_app evs1 evs2 c : run (evs1 ++ evs2) c = run evs2 (run evs1 c).
Proof. apply fold_left_app. Qed.

Lemma step_serves ex c e : serves ex c → serves ex (step c e).
Proof.
  intros [[Hcb Hl]|[Hcb Hl]]; destruct e as [|ty d|ms]; simpl;
    rewrite ?Hcb, ?Hl; try (by left); try (by right).
  - destruct (timer c) as [r|]; [|by left].
    destruct (r <=? ms)%N; simpl; by left.
  - case_bool_decide; simpl; by right.
  - destruct (timer c) as [r|]; [|by right].
    destruct (r <=? ms)%N; simpl; by right.
Qed.

Lemma step_onTimeout c e : onTimeout (step c e) = onTimeout c.
Proof.
  destruct e as [|ty d|ms]; simpl.
  - by destruct (connectCb c).
  - destruct (listener c); [|done]. by case_bool_decide.
  - destruct (timer c) as [r|]; [|done]. by destruct (r <=? ms)%N.
Qed.

Lemma step_settlesOnce ex c e : settlesOnce ex c → settlesOnce ex (step c e).
Proof. intros [H1 H2]. split; [|done]. by rewrite step_onTimeout. Qed.

(** Once settled, the promise of a call never changes again. *)
Lemma run_settled evs : ∀ ex c,
  serves ex c → settlesOnce ex c → settled (promise c) = true →
  promise (run evs c) = promise c.
Proof.
  induction evs as [|e evs IH]; intros ex c Hs Hso Hp; [done|].
  assert (Hstep : promise (step c e) = promise c).
  { destruct Hso as [Ht Hh].
    destruct Hs as [[Hcb Hl]|[Hcb Hl]]; destruct e as [|ty d|ms]; simpl;
      rewrite ?Hcb, ?Hl; try done.
    - destruct (timer c) as [r|]; [|done].
      destruct (r <=? ms)%N; simpl; [by apply Ht|done].
    - case_bool_decide; simpl; [by apply Hh|done].
    - destruct (timer c) as [r|]; [|done].
      destruct (r <=? ms)%N; simpl; [by apply Ht|done]. }
  change (run (e :: evs) c) with (run evs (step c e)).
  rewrite (IH ex); [done|by apply step_serves|by apply step_settlesOnce|].
  by rewrite Hstep.
Qed.

(** While no message of the exchanged type arrives and the timer has not
    run out, the call stays pending, the timer counts down, and the
    listener is registered as soon as the [connectTo] callback has run. *)
Lemma run_silent evs : ∀ ex c r,
  serves ex c → promise c = Pending → timer c = Some r →
  silent (exType ex) evs = true → (elapsed evs < r)%N →
  let c' := run evs c in
  promise c' = Pending ∧ timer c' = Some (r - elapsed evs)%N
  ∧ (connects evs = true → listener c' = Some ex)
  ∧ (listener c = Some ex → listener c' = Some ex).
Proof.
  induction evs as [|e evs IH]; intros ex c r Hs Hp Ht Hq He; cbn zeta.
  { simpl in *. rewrite N.sub_0_r. done. }
  change (run (e :: evs) c) with (run evs (step c e)).
  destruct e as [|ty d|ms]; simpl in Hq, He.
  - (* the callback runs *)
    assert (Hl : listener (step c Connected) = Some ex).
    { simpl. destruct Hs as [[-> _]|[-> Hl]]; done. }
    destruct (IH ex (step c Connected) r) as (H1 & H2 & _ & H4);
      [by apply step_serves| | |done|done|].
    { simpl. by destruct (connectCb c). }
    { simpl. by destruct (connectCb c). }
    simpl elapsed. auto.
  - (* a message of another type *)
    apply andb_true_iff in Hq as [Hty Hq].
    apply negb_true_iff, bool_decide_eq_false in Hty.
    assert (Hsame : step c (Inbound ty d) = c).
    { simpl. destruct Hs as [[_ ->]|[_ ->]]; [done|].
      by rewrite bool_decide_eq_false_2. }
    rewrite Hsame. simpl elapsed. simpl connects. by apply IH.
  - (* time passes, less than what is left on the timer *)
    assert (Hlt : (ms < r)%N) by lia.
    assert (Hno : (r <=? ms)%N = false) by (apply N.leb_gt; lia).
    destruct (IH ex (step c (Elapse ms)) (r - ms)%N) as (H1 & H2 & H3 & H4);
      [by apply step_serves| | |done|lia|].
    { simpl. by rewrite Ht, Hno. }
    { simpl. by rewrite Ht, Hno. }
    simpl connects. simpl elapsed. split; [done|].
    split; [rewrite H2; f_equal; lia|].
    split; [done|]. intros Hl. apply H4. simpl. by rewrite Ht, Hno.
Qed.

(** If no message of the exchanged type arrives before the timer runs
    out, the promise is settled by the timer, whatever happens next. *)
Lemma run_timeout evs : ∀ ex c r post,
  serves ex c → settlesOnce ex c →
  settled (onTimeout c Pending) = true →
  promise c = Pending → timer c = Some r → (0 < r)%N →
  silent (exType ex) evs = true → (r <= elapsed evs)%N →
  promise (run (evs ++ post) c) = onTimeout c Pending.
Proof.
  induction evs as [|e evs IH]; intros ex c r post Hs Hso Hst Hp Ht Hr Hq He.
  { simpl in He. lia. }
  change (run ((e :: evs) ++ post) c) with (run (evs ++ post) (step c e)).
  destruct e as [|ty d|ms]; simpl in Hq, He.
  - rewrite (IH ex (step c Connected) r post);
      first [ by rewrite step_onTimeout | by apply step_serves
            | by apply step_settlesOnce | done
            | simpl; by destruct (connectCb c) ].
  - apply andb_true_iff in Hq as [Hty Hq].
    apply negb_true_iff, bool_decide_eq_false in Hty.
    assert (Hsame : step c (Inbound ty d) = c).
    { simpl. destruct Hs as [[_ ->]|[_ ->]]; [done|].
      by rewrite bool_decide_eq_false_2. }
    rewrite Hsame. by apply (IH ex c r).
  - destruct (N.leb_spec r ms) as [Hfire|Hcont].
    + assert (Hfired : promise (step c (Elapse ms)) = onTimeout c Pending).
      { simpl. rewrite Ht. rewrite (proj2 (N.leb_le r ms)) by done.
        simpl. by rewrite Hp. }
      rewrite (run_settled _ ex); [done|by apply step_serves
                                  |by apply step_settlesOnce|].
      by rewrite Hfired.
    + assert (Hno : (r <=? ms)%N = false) by (apply N.leb_gt; lia).
      rewrite (IH ex (step c (Elapse ms)) (r - ms)%N post);
        first [ by rewrite step_onTimeout | by apply step_serves
              | by apply step_settlesOnce | done | lia
              | simpl; by rewrite Ht, Hno ].
Qed.

(** The first message of the exchanged type that arrives in time is
    handed to the handler, which settles the promise for good. *)
Lemma run_response evs : ∀ ex c r data post,
  serves ex c → settlesOnce ex c →
  (∀ d, settled (exHandler ex d Pending) = true) →
  promise c = Pending → timer c = Some r →
  silent (exType ex) evs = true → (elapsed evs < r)%N →
  connects evs = true ∨ listener c = Some ex →
  promise (run (evs ++ Inbound (exType ex) data :: post) c)
  = exHandler ex data Pending.
Proof.
  intros ex c r data post Hs Hso Hh Hp Ht Hq He Hl.
  rewrite run_app.
  destruct (run_silent evs ex c r Hs Hp Ht Hq He) as (H1 & H2 & H3 & H4).
  set (c1 := run evs c) in *.
  assert (Hl1 : listener c1 = Some ex) by (destruct Hl; auto).
  assert (Hs1 : serves ex c1).
  { clear -Hs. subst c1. revert c Hs.
    induction evs as [|e evs IH]; intros c Hs; [done|].
    apply (IH (step c e)). by apply step_serves. }
  assert (Hso1 : settlesOnce ex c1).
  { clear -Hso. subst c1. revert c Hso.
    induction evs as [|e evs IH]; intros c Hso; [done|].
    apply (IH (step c e)). by apply step_settlesOnce. }
  change (run (Inbound (exType ex) data :: post) c1)
    with (run post (step c1 (Inbound (exType ex) data))).
  assert (Hstep : promise (step c1 (Inbound (exType ex) data))
                  = exHandler ex data Pending).
  { simpl. rewrite Hl1, bool_decide_eq_true_2 by done. simpl.
    by rewrite H1. }
  rewrite (run_settled _ ex); [done|by apply step_serves
                              |by apply step_settlesOnce|].
  rewrite Hstep. apply Hh.
Qed.
End CallFacts.

(** ** connection and execution *)

Lemma reject_settled {A} reason (p : Promise A) :
  settled p = true → reject reason p = p.
Proof. by destruct p. Qed.

Lemma resolve_settled {A} (v : A) (p : Promise A) :
  settled p = true → resolve v p = p.
Proof. by destruct p. Qed.

Lemma credentialsHandler_settled data p :
  settled p = true → credentialsHandler data p = p.
Proof.
  intros Hp. unfold credentialsHandler.
  destruct (includes _ data); [by apply reject_settled|by apply resolve_settled].
Qed.

Lemma credentialsHandler_settles data :
  settled (credentialsHandler data Pending) = true.
Proof. unfold credentialsHandler. by destruct (includes _ data). Qed.

Lemma connection_serves credentials :
  credentialsMissing credentials = false →
  serves (credentialsExchange credentials) (connection credentials)
  ∧ settlesOnce (credentialsExchange credentials) (connection credentials)
  ∧ promise (connection credentials) = Pending
  ∧ timer (connection credentials) = Some 15000%N.
Proof.
  intros Hok. unfold connection. rewrite Hok. simpl.
  split; [by left|]. split; [|done]. split; simpl.
  - intros p. apply reject_settled.
  - intros d p. apply credentialsHandler_settled.
Qed.

(** The reason or value that the handler settles on, case by case. *)
Lemma credentialsHandler_cases data :
  (data = "error" →
   credentialsHandler data Pending = Rejected "Invalid credentials")
  ∧ (data = "login" →
     credentialsHandler data Pending = Rejected "Already logging in")
  ∧ (data = "different" →
     credentialsHandler data Pending
     = Rejected "Already logging in with different credentials")
  ∧ (data ≠ "error" → data ≠ "login" → data ≠ "different" →
     credentialsHandler data Pending = Resolved data).
Proof.
  repeat split.
  - by intros ->.
  - by intros ->.
  - by intros ->.
  - intros He Hl Hd. unfold credentialsHandler, includes.
    rewrite bool_decide_eq_false_2; [done|].
    rewrite !elem_of_cons, elem_of_nil. tauto.
Qed.

(** C1. Whatever the bot answers on the 'credentials' exchange while the
    call is still waiting (the callback has run, no answer has arrived yet,
    and less than 15000 ms have passed), the promise of [connection] is
    settled by that answer and stays so: rejected with 'Invalid credentials'
    for 'error', with 'Already logging in' for 'login', with 'Already
    logging in with different credentials' for 'different', and resolved
    with the answer itself for any other string. *)
Theorem connection_classifies_response credentials pre data post :
  credentialsMissing credentials = false →
  connects pre = true →
  silent "credentials" pre = true →
  (elapsed pre < 15000)%N →
  let outcome :=
    promise (run (pre ++ Inbound "credentials" data :: post)
               (connection credentials)) in
  (data = "error" → outcome = Rejected "Invalid credentials")
  ∧ (data = "login" → outcome = Rejected "Already logging in")
  ∧ (data = "different" →
     outcome = Rejected "Already logging in with different credentials")
  ∧ (data ≠ "error" → data ≠ "login" → data ≠ "different" →
     outcome = Resolved data).
Proof.
  intros Hok Hconn Hsilent Htime outcome.
  destruct (connection_serves credentials Hok) as (Hs & Hso & Hp & Ht).
  assert (Hout : outcome = credentialsHandler data Pending).
  { subst outcome.
    apply (run_response pre (credentialsExchange credentials) _ 15000%N);
      auto using credentialsHandler_settles. }
  rewrite Hout. apply credentialsHandler_cases.
Qed.

Lemma connection_classifies_response_witness :
  promise (run ([Connected; Elapse 20] ++ [Inbound "credentials" "already"])
             (connection someCredentials))
  = Resolved "already"
  ∧ promise (run ([Elapse 3; Connected; Inbound "list:roles" "x"]
                  ++ [Inbound "credentials" "different"; Elapse 20000])
               (connection someCredentials))
    = Rejected "Already logging in with different credentials".
Proof.
  split.
  - apply (connection_classifies_response someCredentials
             [Connected; Elapse 20] "already" []); try reflexivity; done.
  - apply (connection_classifies_response someCredentials
             [Elapse 3; Connected; Inbound "list:roles" "x"] "different"
             [Elapse 20000]); reflexivity.
Defined.

(** C9. When the credentials are absent, or their clientId or their token
    is missing, [connection] rejects with 'credentials missing' at once:
    it arms no timer, makes no call on the channel and registers nothing,
    so that no later event changes anything. *)
Theorem connection_credentials_missing credentials evs :
  (credentials = None
   ∨ ∃ c, credentials = Some c
          ∧ (truthy_field (clientId c) = false
             ∨ truthy_field (token c) = false)) →
  let call := connection credentials in
  promise call = Rejected "credentials missing"
  ∧ ipcLog call = []
  ∧ timer call = None
  ∧ connectCb call = None
  ∧ listener call = None
  ∧ run evs call = call.
Proof.
  intros Hmiss call.
  assert (Hm : credentialsMissing credentials = true).
  { destruct Hmiss as [->|(c & -> & [H|H])]; [done| |]; simpl; rewrite H.
    - by rewrite orb_true_r.
    - done. }
  subst call. unfold connection. rewrite Hm. repeat split.
  induction evs as [|e evs IH]; [done|].
  by destruct e.
Qed.

Lemma connection_credentials_missing_witness :
  let credentials :=
    Some {| clientId := None; token := Some "secret"; apiKey := None |} in
  promise (run [Connected; Inbound "credentials" "ready"; Elapse 15000]
             (connection credentials))
  = Rejected "credentials missing"
  ∧ ipcLog (connection credentials) = [].
Proof.
  intros credentials.
  destruct (connection_credentials_missing credentials
              [Connected; Inbound "credentials" "ready"; Elapse 15000])
    as (Hp & Hlog & _ & _ & _ & Hrun).
  - right. eexists. split; [reflexivity|]. left. reflexivity.
  - rewrite Hrun. split; [exact Hp|exact Hlog].
Defined.

(** C10. The promise of [execution] resolves true on the first 'execution'
    message that arrives once the callback has run and before 15000 ms have
    passed; if none arrives in 15000 ms it is rejected with 'timeout'.
    Either way the outcome is final. *)
Theorem execution_resolves_or_times_out
    executionId placeholderId channelId apiKey userId pre post :
  silent "execution" pre = true →
  let call := execution executionId placeholderId channelId apiKey userId in
  (∀ data, connects pre = true → (elapsed pre < 15000)%N →
     promise (run (pre ++ Inbound "execution" data :: post) call)
     = Resolved true)
  ∧ ((15000 <= elapsed pre)%N →
     promise (run (pre ++ post) call) = Rejected "timeout").
Proof.
  intros Hsilent call.
  set (ex := executionExchange
               {| executionId := executionId; placeholderId := placeholderId;
                  channelId := channelId; executionApiKey := apiKey;
                  userId := userId |}).
  assert (Hs : serves ex call) by (by left).
  assert (Hso : settlesOnce ex call).
  { split; simpl.
    - intros p. apply reject_settled.
    - intros d p. apply resolve_settled. }
  split.
  - intros data Hconn Htime.
    apply (run_response pre ex call 15000%N data post); auto.
  - intros Hlate.
    apply (run_timeout pre ex call 15000%N post); auto. lia.
Qed.

Lemma execution_resolves_or_times_out_witness :
  promise (run ([Connected; Elapse 14999] ++ [Inbound "execution" JsNull])
             (execution "e1" "p1" "c1" "key" None))
  = Resolved true
  ∧ promise (run ([Connected; Elapse 9000; Elapse 6000]
                  ++ [Inbound "execution" JsNull])
               (execution "e1" "p1" "c1" "key" None))
    = Rejected "timeout".
Proof.
  split.
  - apply (execution_resolves_or_times_out "e1" "p1" "c1" "key" None
             [Connected; Elapse 14999] []); reflexivity.
  - apply (execution_resolves_or_times_out "e1" "p1" "c1" "key" None
             [Connected; Elapse 9000; Elapse 6000]
             [Inbound "execution" JsNull]); [reflexivity|].
    vm_compute. discriminate.
Defined.

(** ** getRoles *)

(** C8. When the negotiation succeeds and a list of roles arrives on the
    'list:roles' exchange, [getRoles] returns the roles of that list that
    are not named '@everyone', in their order; when none is left, it
    returns the single 'no roles' option with value 'false' instead. *)
Theorem getRoles_filters_everyone credentials negotiation listing roles :
  (promise (run negotiation (connection credentials)) = Resolved "ready"
   ∨ promise (run negotiation (connection credentials)) = Resolved "already") →
  promise (run listing rolesRequest) = Resolved (RolesArray roles) →
  let kept := filter (λ r, name r ≠ "@everyone") roles in
  getRoles credentials negotiation listing
  = Some (match kept with
          | [] => [NamedOption noRolesMessage "false"]
          | _ => RoleOption <$> kept
          end)
  ∧ kept `sublist_of` roles
  ∧ (∀ r, r ∈ kept ↔ r ∈ roles ∧ name r ≠ "@everyone").
Proof.
  intros Hneg Hlist kept.
  assert (Hkept : kept = filter notEveryone roles) by done.
  split; [|split].
  - unfold getRoles. rewrite Hlist.
    destruct Hneg as [-> | ->]; simpl; rewrite <- Hkept; by destruct kept.
  - apply sublist_filter.
  - intros r. rewrite Hkept, list_elem_of_filter. unfold notEveryone. tauto.
Qed.

Lemma getRoles_filters_everyone_witness :
  let everyone := {| name := "@everyone"; id := "1" |} in
  let admin := {| name := "admin"; id := "2" |} in
  let negotiation := [Connected; Elapse 10; Inbound "credentials" "ready"] in
  getRoles someCredentials negotiation
    [Connected; Inbound "list:roles" (RolesArray [everyone; admin; everyone])]
  = Some [RoleOption admin]
  ∧ getRoles someCredentials negotiation
      [Connected; Inbound "list:roles" (RolesArray [everyone])]
    = Some [NamedOption noRolesMessage "false"].
Proof.
  intros everyone admin negotiation. split.
  - apply (getRoles_filters_everyone someCredentials negotiation
             [Connected;
              Inbound "list:roles" (RolesArray [everyone; admin; everyone])]
             [everyone; admin; everyone]); [left|]; reflexivity.
  - apply (getRoles_filters_everyone someCredentials negotiation
             [Connected; Inbound "list:roles" (RolesArray [everyone])]
             [everyone]); [left|]; reflexivity.
Defined.

(** ** triggerWorkflow *)

(** C2. The POST of [triggerWorkflow] fails when no answer comes or the
    answer has a status outside 200..299. When it fails, a trigger is
    registered for the webhook and the state is not in test mode, the
    trigger of that webhook (and no other) becomes inactive, the callback
    handed to the channel emits 'trigger' with the deactivated record, and
    the call resolves false. When it fails in test mode, the state is left
    as it is, nothing is sent on the channel and the call resolves false.
    When the POST succeeds (a status from 200 to 299) the call resolves
    true, with the state left as it is and nothing sent on the channel. *)
Theorem triggerWorkflow_failure_deactivates
    webhookId message placeholderId http inflight st :
  let st1 := inflight st in
  let d := triggerWorkflow webhookId message placeholderId http inflight st in
  (postRejected http = true ↔
     http = HttpError
     ∨ ∃ status, http = HttpResponse status ∧ (status < 200 ∨ 300 <= status))
  ∧ (postRejected http = true →
     (∀ t, triggers st1 !! webhookId = Some t → testMode st1 = false →
        triggers (dState d) !! webhookId = Some (deactivate t)
        ∧ active <$> triggers (dState d) !! webhookId = Some false
        ∧ (∀ other, other ≠ webhookId →
             triggers (dState d) !! other = triggers st1 !! other)
        ∧ dispatchedIpc d
          = [ConnectTo "bot";
             Emit "trigger" (TriggerPayload (Some (deactivate t)))]
        ∧ dResult d = false)
     ∧ (testMode st1 = true →
        dState d = st1 ∧ dispatchedIpc d = [] ∧ dResult d = false))
  ∧ (postRejected http = false →
     dResult d = true ∧ dState d = st1 ∧ dispatchedIpc d = []).
Proof.
  intros st1 d. split; [|split].
  - destruct http as [status|]; simpl.
    + unfold validateStatus. rewrite negb_true_iff, andb_false_iff.
      rewrite Z.leb_gt, Z.ltb_ge. split.
      * intros H. right. exists status. split; [done|]. lia.
      * intros [Hx|(status' & Hx & H)]; [discriminate|].
        injection Hx as <-. lia.
    + split; [by left|done].
  - intros Hfail. subst d. unfold triggerWorkflow. rewrite Hfail.
    unfold onPostError. fold st1. split.
    + intros t Ht Hlive. rewrite Ht, Hlive. unfold dispatchedIpc. simpl.
      unfold triggerCallback. simpl. rewrite lookup_insert_eq.
      split; [done|]. split; [done|]. split; [|done].
      intros other Hne. by rewrite lookup_insert_ne.
    + intros Htest. rewrite Htest. by destruct (triggers st1 !! webhookId).
  - intros Hok. subst d. unfold triggerWorkflow. by rewrite Hok.
Qed.

Lemma triggerWorkflow_failure_deactivates_witness :
  let failed :=
    triggerWorkflow "hook" someMessage "p1" (HttpResponse 500) (λ st, st)
      liveState in
  active <$> triggers (dState failed) !! "hook" = Some false
  ∧ dispatchedIpc failed
    = [ConnectTo "bot";
       Emit "trigger"
         (TriggerPayload (Some {| active := false; triggerConfig := "cfg" |}))]
  ∧ dResult failed = false
  ∧ dResult (triggerWorkflow "hook" someMessage "p1" (HttpResponse 204)
               (λ st, st) liveState) = true.
Proof.
  intros failed.
  destruct (triggerWorkflow_failure_deactivates "hook" someMessage "p1"
              (HttpResponse 500) (λ st, st) liveState) as (_ & Hfail & _).
  destruct (Hfail eq_refl) as [Hlive _].
  destruct (Hlive {| active := true; triggerConfig := "cfg" |})
    as (_ & Hact & _ & Hipc & Hres); [reflexivity|reflexivity|].
  destruct (triggerWorkflow_failure_deactivates "hook" someMessage "p1"
              (HttpResponse 204) (λ st, st) liveState) as (_ & _ & Hok).
  destruct (Hok eq_refl) as [Htrue _].
  split; [exact Hact|]. split; [exact Hipc|]. split; [exact Hres|exact Htrue].
Defined.

(** ** pollingPromptData: one run of [waiting], case by case *)

Section PollFacts.
Context (w : World) (message : Message) (content : string).

Lemma pollRun_disarmed seconds n p :
  pollArmed p = false → pollRun w message content seconds n p = p.
Proof. intros H. destruct n; simpl; by rewrite ?H. Qed.

Lemma pollRun_add seconds n : ∀ m p,
  pollRun w message content seconds (n + m) p
  = pollRun w message content seconds m
      (pollRun w message content seconds n p).
Proof.
  induction n as [|n IH]; intros m p; [done|].
  simpl. destruct (pollArmed p) eqn:Harmed; [apply IH|].
  by rewrite pollRun_disarmed.
Qed.

(** The value is set: the loop ends without touching the message. *)
Lemma pollWaiting_answered seconds p :
  hasValueAt w message (pollClock p) = true →
  pollWaiting w message content seconds p
  = {| pollI := pollI p; pollClock := pollClock p;
       pollPromise := resolve true (pollPromise p);
       pollEffects := pollEffects p; pollArmed := false |}.
Proof.
  unfold hasValueAt, pollWaiting. intros ->. done.
Qed.

(** No value and the deadline is over: the loop ends with the plain
    content and, when the channel is cached, the notice. *)
Lemma pollWaiting_deadline seconds p :
  hasValueAt w message (pollClock p) = false →
  seconds ≠ 0 → seconds < pollI p →
  let edited := (pollClock p + latency w (pollClock p))%N in
  let cached := cacheGet (clientAt w edited) (msgChannelId message) in
  pollWaiting w message content seconds p
  = {| pollI := pollI p;
       pollClock := if cached then (edited + latency w edited)%N else edited;
       pollPromise := resolve true (pollPromise p);
       pollEffects :=
         pollEffects p ++
         MessageEditClear (msgId message) content ::
         (if cached
          then [ChannelSend (msgChannelId message) "Timeout reached"]
          else []);
       pollArmed := false |}.
Proof.
  unfold hasValueAt, pollWaiting. intros -> Hs Hi.
  assert ((seconds =? 0) = false) as -> by (by apply Z.eqb_neq).
  assert ((seconds <? pollI p) = true) as -> by (by apply Z.ltb_lt).
  simpl. by destruct (cacheGet _ _).
Qed.

(** No value and a deadline that is not over: the remaining seconds are
    shown and the next run is one second after the edit. *)
Lemma pollWaiting_countdown seconds p :
  hasValueAt w message (pollClock p) = false →
  seconds ≠ 0 → pollI p <= seconds →
  pollWaiting w message content seconds p
  = {| pollI := pollI p + 1;
       pollClock := (pollClock p + latency w (pollClock p) + 1000)%N;
       pollPromise := pollPromise p;
       pollEffects :=
         pollEffects p ++
         [MessageEdit (msgId message)
            (content +:+ countdown seconds (pollI p))];
       pollArmed := true |}.
Proof.
  unfold hasValueAt, pollWaiting. intros -> Hs Hi.
  assert ((seconds =? 0) = false) as -> by (by apply Z.eqb_neq).
  assert ((seconds <? pollI p) = false) as -> by (by apply Z.ltb_ge).
  done.
Qed.

(** No value and no deadline: nothing but the next timer. *)
Lemma pollWaiting_idle p :
  hasValueAt w message (pollClock p) = false →
  pollWaiting w message content 0 p
  = {| pollI := pollI p + 1; pollClock := (pollClock p + 1000)%N;
       pollPromise := pollPromise p; pollEffects := pollEffects p;
       pollArmed := true |}.
Proof. unfold hasValueAt, pollWaiting. intros ->. done. Qed.

Lemma pollRun_idle n : ∀ p,
  pollArmed p = true →
  (∀ k, (k < n)%nat →
        hasValueAt w message (pollClock p + 1000 * N.of_nat k)%N = false) →
  pollRun w message content 0 n p
  = {| pollI := pollI p + Z.of_nat n;
       pollClock := (pollClock p + 1000 * N.of_nat n)%N;
       pollPromise := pollPromise p; pollEffects := pollEffects p;
       pollArmed := true |}.
Proof.
  induction n as [|n IH]; intros p Harmed Hunset.
  - destruct p; simpl in *. subst. f_equal; lia.
  - cbn [pollRun]. rewrite Harmed.
    rewrite pollWaiting_idle.
    2:{ specialize (Hunset O). rewrite N.mul_0_r, N.add_0_r in Hunset.
        apply Hunset. lia. }
    rewrite IH; [cbn; f_equal; lia|done|].
    intros k Hk. cbn [pollClock].
    replace (pollClock p + 1000 + 1000 * N.of_nat k)%N
      with (pollClock p + 1000 * N.of_nat (S k))%N by lia.
    apply Hunset. lia.
Qed.
End PollFacts.

(** C4 (as the code has it). The run of [waiting] that ends the loop
    resolves true. When it ends because the value is set, it does nothing
    to the message and sends nothing. When it ends because a deadline is
    configured and over while no value is set, it edits the message back to
    the plain content and then sends 'Timeout reached' to the channel of
    the message if the client has that channel cached. With seconds = 3, a
    value that is never set and a cached channel, the fourth run (three
    timers after the first) ends the loop after the countdown edits with
    the plain content and the notice. *)
Theorem pollingPromptData_termination w message content seconds p :
  pollPromise p = Pending →
  let answered := hasValueAt w message (pollClock p) in
  let p' := pollWaiting w message content seconds p in
  (answered = true →
     pollPromise p' = Resolved true ∧ pollArmed p' = false
     ∧ pollEffects p' = pollEffects p)
  ∧ (answered = false → seconds ≠ 0 → seconds < pollI p →
     pollPromise p' = Resolved true ∧ pollArmed p' = false
     ∧ pollEffects p'
       = pollEffects p ++
         MessageEditClear (msgId message) content ::
         (if cacheGet
               (clientAt w (pollClock p + latency w (pollClock p))%N)
               (msgChannelId message)
          then [ChannelSend (msgChannelId message) "Timeout reached"]
          else []))
  ∧ (answered = false → seconds = 0 ∨ pollI p <= seconds →
     pollPromise p' = Pending ∧ pollArmed p' = true)
  ∧ (∀ start extra,
       (∀ t, hasValueAt w message t = false) →
       (∀ t, cacheGet (clientAt w t) (msgChannelId message) = true) →
       let final :=
         pollingPromptData w message content 3 start (4 + extra) in
       pollPromise final = Resolved true ∧ pollArmed final = false
       ∧ pollEffects final
         = [MessageEdit (msgId message) (content +:+ " (2s)");
            MessageEdit (msgId message) (content +:+ " (1s)");
            MessageEdit (msgId message) (content +:+ " (0s)");
            MessageEditClear (msgId message) content;
            ChannelSend (msgChannelId message) "Timeout reached"]).
Proof.
  intros Hp answered p'. subst answered p'.
  split; [|split; [|split]].
  - intros Hv. by rewrite pollWaiting_answered, Hp.
  - intros Hv Hs Hi. by rewrite pollWaiting_deadline, Hp.
  - intros Hv [->|Hi]; [by rewrite pollWaiting_idle|].
    destruct (decide (seconds = 0)) as [->|Hs];
      [by rewrite pollWaiting_idle|by rewrite pollWaiting_countdown].
  - intros start extra Hnever Hcached final. subst final.
    unfold pollingPromptData.
    rewrite (pollRun_add w message content 3 4 extra).
    cbn [pollRun pollArmed].
    do 3 (rewrite pollWaiting_countdown by (auto; cbn; lia);
          cbn [pollArmed]).
    rewrite pollWaiting_deadline by (auto; cbn; lia).
    rewrite pollRun_disarmed by done.
    cbn [pollPromise pollArmed pollEffects pollI pollClock].
    by rewrite Hcached.
Qed.

Lemma pollingPromptData_termination_witness :
  let final := pollingPromptData silentWorld someMessage "Pick one" 3 0 4 in
  pollPromise final = Resolved true ∧ pollArmed final = false
  ∧ pollEffects final
    = [MessageEdit "900" "Pick one (2s)"; MessageEdit "900" "Pick one (1s)";
       MessageEdit "900" "Pick one (0s)"; MessageEditClear "900" "Pick one";
       ChannelSend "77" "Timeout reached"].
Proof.
  intros final.
  destruct (pollingPromptData_termination silentWorld someMessage "Pick one"
              3 {| pollI := 1; pollClock := 0; pollPromise := Pending;
                   pollEffects := []; pollArmed := true |} eq_refl)
    as (_ & _ & _ & Hrun).
  apply (Hrun 0%N 0%nat); intros t; reflexivity.
Defined.

(** C4, the claim as stated fails. With seconds = 3 and the value set
    1500 ms in, the loop ends at its third run and resolves true, but it
    did not edit the message then: its last edit wrote a countdown. And
    with a value that is never set and a client that has not cached the
    channel, the loop ends after the deadline with the plain content but
    sends no notice. *)
Lemma pollingPromptData_answered_keeps_countdown :
  let final := pollingPromptData answeredWorld someMessage "Pick one" 3 0 3 in
  let late := pollingPromptData uncachedWorld someMessage "Pick one" 3 0 4 in
  (pollPromise final = Resolved true ∧ pollArmed final = false
   ∧ pollEffects final
     = [MessageEdit "900" "Pick one (2s)"; MessageEdit "900" "Pick one (1s)"]
   ∧ last (pollEffects final) ≠ Some (MessageEditClear "900" "Pick one")
   ∧ last (pollEffects final) ≠ Some (MessageEdit "900" "Pick one"))
  ∧ (pollPromise late = Resolved true ∧ pollArmed late = false
     ∧ pollEffects late
       = [MessageEdit "900" "Pick one (2s)"; MessageEdit "900" "Pick one (1s)";
          MessageEdit "900" "Pick one (0s)";
          MessageEditClear "900" "Pick one"]).
Proof. vm_compute. repeat split; discriminate. Qed.

(** C5, the claim as stated fails: a value that is set, but to something
    falsy (0, the empty string, false), does not end the loop. With
    seconds = 0 and such a value present from the start, the promise is
    pending after any number of runs. *)
Lemma pollingPromptData_falsy_value_stays_pending :
  (∀ t, promptData (stateAt (valueWorld (JsNum 0)) t) !! "900"
        = Some {| value := JsNum 0 |})
  ∧ (∀ n, pollPromise (pollingPromptData (valueWorld (JsNum 0)) someMessage
                         "Pick one" 0 0 n) = Pending)
  ∧ pollPromise (pollingPromptData (valueWorld (JsStr "")) someMessage
                   "Pick one" 0 0 50) = Pending
  ∧ pollPromise (pollingPromptData (valueWorld (JsBool false)) someMessage
                   "Pick one" 0 0 50) = Pending
  ∧ pollPromise (pollingPromptData (valueWorld (JsNum 1)) someMessage
                   "Pick one" 0 0 1) = Resolved true.
Proof.
  split; [done|]. split; [|by vm_compute].
  intros n. unfold pollingPromptData.
  rewrite pollRun_idle; [done|done|]. intros k Hk. reflexivity.
Qed.

(** C5 (as the code has it). With seconds = 0, as long as the value is not
    truthy (unset, or set to a falsy value) at every run of [waiting], the
    promise stays pending, nothing is written to the message and the next
    run is one second later; the first run that finds a truthy value
    resolves true, still without having written anything. So if the value
    becomes truthy at time T and stays so, the promise is resolved at a
    time in [T, T + 1000), and not before. *)
Theorem pollingPromptData_no_deadline w message content start :
  (∀ n,
     (∀ k, (k < n)%nat →
        hasValueAt w message (start + 1000 * N.of_nat k)%N = false) →
     let p := pollingPromptData w message content 0 start n in
     pollPromise p = Pending ∧ pollEffects p = [] ∧ pollArmed p = true
     ∧ pollClock p = (start + 1000 * N.of_nat n)%N)
  ∧ (∀ n extra,
       (∀ k, (k < n)%nat →
          hasValueAt w message (start + 1000 * N.of_nat k)%N = false) →
       hasValueAt w message (start + 1000 * N.of_nat n)%N = true →
       let p := pollingPromptData w message content 0 start (S n + extra) in
       pollPromise p = Resolved true ∧ pollEffects p = []
       ∧ pollArmed p = false
       ∧ pollClock p = (start + 1000 * N.of_nat n)%N)
  ∧ (∀ T, (start <= T)%N →
       (∀ t, (t < T)%N → hasValueAt w message t = false) →
       (∀ t, (T <= t)%N → hasValueAt w message t = true) →
       ∃ n,
         let p := pollingPromptData w message content 0 start (S n) in
         pollPromise p = Resolved true ∧ pollEffects p = []
         ∧ (T <= pollClock p < T + 1000)%N
         ∧ ∀ m, (m <= n)%nat →
             pollPromise (pollingPromptData w message content 0 start m)
             = Pending).
Proof.
  assert (Hidle : ∀ n,
     (∀ k, (k < n)%nat →
        hasValueAt w message (start + 1000 * N.of_nat k)%N = false) →
     pollingPromptData w message content 0 start n
     = {| pollI := 1 + Z.of_nat n;
          pollClock := (start + 1000 * N.of_nat n)%N;
          pollPromise := Pending; pollEffects := []; pollArmed := true |}).
  { intros n Hunset. unfold pollingPromptData. by rewrite pollRun_idle. }
  assert (Hset : ∀ n extra,
     (∀ k, (k < n)%nat →
        hasValueAt w message (start + 1000 * N.of_nat k)%N = false) →
     hasValueAt w message (start + 1000 * N.of_nat n)%N = true →
     pollingPromptData w message content 0 start (S n + extra)
     = {| pollI := 1 + Z.of_nat n;
          pollClock := (start + 1000 * N.of_nat n)%N;
          pollPromise := Resolved true; pollEffects := [];
          pollArmed := false |}).
  { intros n extra Hunset Hnow. unfold pollingPromptData.
    replace (S n + extra)%nat with (n + S extra)%nat by lia.
    rewrite pollRun_add. fold (pollingPromptData w message content 0 start n).
    rewrite Hidle by done. cbn [pollRun pollArmed].
    rewrite pollWaiting_answered by done.
    by rewrite pollRun_disarmed. }
  split; [|split].
  - intros n Hunset p. subst p. by rewrite Hidle.
  - intros n extra Hunset Hnow p. subst p. by rewrite Hset.
  - intros T Hstart Hbefore Hafter.
    set (q := ((T - start + 999) / 1000)%N).
    assert (Hq : (1000 * q <= T - start + 999 < 1000 * q + 1000)%N).
    { unfold q. split.
      - apply N.Div0.mul_div_le.
      - pose proof (N.mul_succ_div_gt (T - start + 999) 1000) as H.
        lia. }
    exists (N.to_nat q). cbn zeta.
    assert (Hun : ∀ k, (k < N.to_nat q)%nat →
              hasValueAt w message (start + 1000 * N.of_nat k)%N = false).
    { intros k Hk. apply Hbefore. lia. }
    replace (S (N.to_nat q)) with (S (N.to_nat q) + 0)%nat by lia.
    rewrite Hset; [|done|apply Hafter; lia].
    cbn [pollPromise pollEffects pollClock].
    split; [done|]. split; [done|]. split; [lia|].
    intros m Hm. rewrite Hidle; [done|].
    intros k Hk. apply Hun. lia.
Qed.

Lemma pollingPromptData_no_deadline_witness :
  pollPromise (pollingPromptData answeredWorld someMessage "Pick one" 0 0 2)
  = Pending
  ∧ let p := pollingPromptData answeredWorld someMessage "Pick one" 0 0 3 in
    pollPromise p = Resolved true ∧ pollEffects p = []
    ∧ pollArmed p = false ∧ pollClock p = 2000%N.
Proof.
  destruct (pollingPromptData_no_deadline answeredWorld someMessage
              "Pick one" 0) as (Hidle & Hset & _).
  split.
  - apply (Hidle 2%nat). intros k Hk.
    destruct k as [|[|k]]; [reflexivity|reflexivity|lia].
  - apply (Hset 2%nat 0%nat); [|reflexivity]. intros k Hk.
    destruct k as [|[|k]]; [reflexivity|reflexivity|lia].
Defined.

(** ** placeholderLoading: the frames of the animation *)

Lemma append_empty_r (s : string) : s +:+ "" = s.
Proof.
  induction s as [|a s IH]; [done|].
  change (String a (s +:+ "") = String a s). by rewrite IH.
Qed.

Lemma withDots_0 txt : withDots txt 0 = txt.
Proof. unfold withDots. simpl. apply append_empty_r. Qed.

(** The counter after [i++; if (i > 3) i = 0], for a counter that is the
    number of runs so far modulo 4. *)
Lemma next_counter (runs : nat) :
  (if 3 <? Z.of_nat runs mod 4 + 1 then 0 else Z.of_nat runs mod 4 + 1)
  = Z.of_nat (S runs) mod 4.
Proof.
  rewrite Nat2Z.inj_succ.
  destruct (Z.ltb_spec 3 (Z.of_nat runs mod 4 + 1));
    Z.div_mod_to_equations; lia.
Qed.

Section LoaderFacts.
Context (placeholder : Message) (placeholderMatchingId txt : string).
Context (env : nat → ProcessState → ProcessState).

Lemma loadRun_disarmed k n l :
  loadArmed l = false →
  loadRun placeholder placeholderMatchingId txt env k n l = l.
Proof. intros H. destruct n; simpl; by rewrite ?H. Qed.

Lemma loadRun_add n : ∀ m k l,
  loadRun placeholder placeholderMatchingId txt env k (n + m) l
  = loadRun placeholder placeholderMatchingId txt env (k + n) m
      (loadRun placeholder placeholderMatchingId txt env k n l).
Proof.
  induction n as [|n IH]; intros m k l.
  - simpl. by rewrite Nat.add_0_r.
  - simpl. destruct (loadArmed l) eqn:Harmed.
    + rewrite IH. by replace (S k + n)%nat with (k + S n)%nat by lia.
    + by rewrite loadRun_disarmed.
Qed.

(** While every timer finds the entry, every timer runs [waiting], which
    makes the next frame. *)
Lemma loadRun_animating st0 n : ∀ k l,
  loadArmed l = true →
  loadState l = envState env k st0 →
  loadI l = Z.of_nat (S k) mod 4 →
  (∀ j, (k <= j < k + n)%nat →
     matchingPresent (envState env (S j) st0) placeholderMatchingId = true) →
  loadRun placeholder placeholderMatchingId txt env k n l
  = {| loadI := Z.of_nat (S (k + n)) mod 4;
       loadState := envState env (k + n) st0;
       loadEffects := loadEffects l ++ map (frame placeholder txt) (seq (S (S k)) n);
       loadArmed := true |}.
Proof.
  induction n as [|n IH]; intros k l Harmed Hst Hi Hpresent.
  - simpl. rewrite Nat.add_0_r, app_nil_r. destruct l; simpl in *.
    by subst.
  - cbn [loadRun]. rewrite Harmed.
    assert (Hk : matchingPresent (envState env (S k) st0)
                   placeholderMatchingId = true)
      by (apply Hpresent; lia).
    assert (Hstep :
      loadTimer placeholder placeholderMatchingId txt (interfere (env k) l)
      = {| loadI := Z.of_nat (S (S k)) mod 4;
           loadState := envState env (S k) st0;
           loadEffects := loadEffects l ++ [frame placeholder txt (S (S k))];
           loadArmed := true |}).
    { unfold loadTimer, loadWaiting, interfere. cbn [loadState loadI].
      rewrite Hst. change (env k (envState env k st0))
        with (envState env (S k) st0).
      rewrite Hk. cbn [negb loadEffects]. rewrite Hi, next_counter. done. }
    rewrite Hstep, IH; try done.
    + cbn [loadEffects]. rewrite <- app_assoc.
      replace (S k + n)%nat with (k + S n)%nat by lia. done.
    + intros j Hj. apply Hpresent. lia.
Qed.

(** The first timer that does not find the entry makes one edit with the
    plain text and arms no further timer. *)
Lemma loadTimer_absent l :
  matchingPresent (loadState l) placeholderMatchingId = false →
  loadTimer placeholder placeholderMatchingId txt l
  = {| loadI := loadI l; loadState := loadState l;
       loadEffects := loadEffects l ++ [MessageEdit (msgId placeholder) txt];
       loadArmed := false |}.
Proof. unfold loadTimer. by intros ->. Qed.

(** The first run of [waiting], right after the entry is written. *)
Lemma placeholderLoading_first st :
  truthy_str (msgId placeholder) = true →
  placeholderLoading placeholder placeholderMatchingId txt st
  = {| loadI := 1;
       loadState :=
         set_placeholderMatching
           (<[placeholderMatchingId := msgId placeholder]>
              (placeholderMatching st)) st;
       loadEffects := [frame placeholder txt 1]; loadArmed := true |}.
Proof.
  intros Hid. unfold placeholderLoading, loadWaiting, matchingPresent.
  cbn [loadState placeholderMatching set_placeholderMatching].
  rewrite lookup_insert_eq, Hid. done.
Qed.
(** With a placeholder whose identifier is empty the entry just written is
    falsy: the first run makes the plain edit and no timer is armed. *)
Lemma placeholderLoading_empty_id st :
  truthy_str (msgId placeholder) = false →
  placeholderLoading placeholder placeholderMatchingId txt st
  = {| loadI := 1;
       loadState :=
         set_placeholderMatching
           (<[placeholderMatchingId := msgId placeholder]>
              (placeholderMatching st)) st;
       loadEffects := [MessageEdit (msgId placeholder) txt];
       loadArmed := false |}.
Proof.
  intros Hid. unfold placeholderLoading, loadWaiting, matchingPresent.
  cbn [loadState placeholderMatching set_placeholderMatching].
  rewrite lookup_insert_eq, Hid. done.
Qed.
End LoaderFacts.

(** C6 (as the code has it). While every timer finds the entry of
    [placeholderMatching], the runs of [waiting] edit the placeholder to the
    base text followed by 1, 2, 3, 0, 1, 2, 3, 0, ... dots: the run
    numbered j (from 1) shows j mod 4 dots, the frame with no dot being the
    base text itself. The first timer that does not find the entry makes
    one last edit with the base text and arms no further timer. *)
Theorem placeholderLoading_frames
    placeholder placeholderMatchingId txt st env n :
  truthy_str (msgId placeholder) = true →
  let first := placeholderLoading placeholder placeholderMatchingId txt st in
  (∀ j, (j < n)%nat →
     matchingPresent (envState env (S j) (loadState first))
       placeholderMatchingId = true) →
  let shows (j : nat) :=
    MessageEdit (msgId placeholder) (withDots txt (Z.of_nat j mod 4)) in
  let l := loadRun placeholder placeholderMatchingId txt env 0 n first in
  loadArmed l = true
  ∧ loadEffects l = map shows (seq 1 (S n))
  ∧ withDots txt 0 = txt
  ∧ (matchingPresent (envState env (S n) (loadState first))
       placeholderMatchingId = false →
     ∀ extra,
       let final :=
         loadRun placeholder placeholderMatchingId txt env 0 (S n + extra)
           first in
       loadArmed final = false
       ∧ loadEffects final
         = map shows (seq 1 (S n)) ++ [MessageEdit (msgId placeholder) txt]).
Proof.
  intros Hid first Hpresent shows l.
  assert (Hfirst : first = _) by apply (placeholderLoading_first _ _ _ _ Hid).
  set (st0 := loadState first) in *.
  assert (Hl : l = {| loadI := Z.of_nat (S n) mod 4;
                      loadState := envState env n st0;
                      loadEffects := map shows (seq 1 (S n));
                      loadArmed := true |}).
  { subst l.
    rewrite (loadRun_animating placeholder placeholderMatchingId txt env
               st0 n 0 first).
    - f_equal. rewrite Hfirst. done.
    - by rewrite Hfirst.
    - done.
    - by rewrite Hfirst.
    - intros j Hj. apply Hpresent. lia. }
  split; [by rewrite Hl|]. split; [by rewrite Hl|].
  split; [apply withDots_0|].
  intros Habsent extra final. subst final.
  replace (S n + extra)%nat with (n + S extra)%nat by lia.
  rewrite loadRun_add. fold l. rewrite Hl. cbn [loadRun loadArmed].
  rewrite loadTimer_absent by done.
  by rewrite loadRun_disarmed.
Qed.

Lemma placeholderLoading_frames_witness :
  loadEffects (loadRun someMessage "ph" "Loading" (stopAt 4) 0 9
                 (placeholderLoading someMessage "ph" "Loading" emptyState))
  = [MessageEdit "900" "Loading."; MessageEdit "900" "Loading..";
     MessageEdit "900" "Loading..."; MessageEdit "900" "Loading";
     MessageEdit "900" "Loading."; MessageEdit "900" "Loading"].
Proof.
  destruct (placeholderLoading_frames someMessage "ph" "Loading" emptyState
              (stopAt 4) 4 eq_refl) as (_ & _ & _ & Hstop).
  - intros j Hj.
    destruct j as [|[|[|[|j]]]]; [reflexivity..|lia].
  - destruct (Hstop eq_refl 4%nat) as [_ Hfinal].
    exact Hfinal.
Defined.

(** C6, the claim as stated fails: while the entry is present and the loop
    is animating, the fourth edit shows the base text with no dot. *)
Lemma placeholderLoading_fourth_frame_has_no_dot :
  let l := loadRun someMessage "ph" "Loading" (λ _ st, st) 0 3
             (placeholderLoading someMessage "ph" "Loading" emptyState) in
  loadArmed l = true
  ∧ matchingPresent (loadState l) "ph" = true
  ∧ loadEffects l
    = [MessageEdit "900" "Loading."; MessageEdit "900" "Loading..";
       MessageEdit "900" "Loading..."; MessageEdit "900" "Loading"]
  ∧ loadEffects l !! 3%nat = Some (MessageEdit "900" (withDots "Loading" 0)).
Proof. vm_compute. done. Qed.

(** C7, the claim as stated fails: [placeholderLoading] itself writes the
    entry that its loop then reads. *)
Lemma placeholderLoading_writes_entry :
  let first := placeholderLoading someMessage "ph" "Loading" emptyState in
  placeholderMatching emptyState !! "ph" = None
  ∧ placeholderMatching (loadState first) !! "ph" = Some "900"
  ∧ placeholderMatching (loadState first) ≠ placeholderMatching emptyState.
Proof.
  intros first. split; [done|]. split; [done|].
  intros Heq. apply (f_equal (λ m : gmap string string, m !! "ph")) in Heq.
  vm_compute in Heq. discriminate.
Qed.

(** C7 (as the code has it). [placeholderLoading] writes one entry of
    [placeholderMatching] when it starts: the one of its own identifier,
    set to the identifier of the placeholder message; every other entry
    and [promptData] are left as they were. After that, the runs of
    [waiting] and the timers only read the state: without interference of
    the collaborators it never changes. [addLog] and [triggerWorkflow]
    write neither [placeholderMatching] nor [promptData]. *)
Theorem placeholderMatching_written_once
    placeholder placeholderMatchingId txt st :
  let first := placeholderLoading placeholder placeholderMatchingId txt st in
  placeholderMatching (loadState first)
  = <[placeholderMatchingId := msgId placeholder]> (placeholderMatching st)
  ∧ (∀ other, other ≠ placeholderMatchingId →
       placeholderMatching (loadState first) !! other
       = placeholderMatching st !! other)
  ∧ promptData (loadState first) = promptData st
  ∧ (∀ l,
       loadState (loadWaiting placeholder placeholderMatchingId txt l)
       = loadState l
       ∧ loadState (loadTimer placeholder placeholderMatchingId txt l)
         = loadState l)
  ∧ (∀ n k l,
       loadState (loadRun placeholder placeholderMatchingId txt (λ _ s, s)
                    k n l) = loadState l)
  ∧ (∀ now message client s,
       placeholderMatching (addLog now message client s).1
       = placeholderMatching s
       ∧ promptData (addLog now message client s).1 = promptData s)
  ∧ (∀ webhookId message placeholderId http inflight s,
       let d := triggerWorkflow webhookId message placeholderId http
                  inflight s in
       placeholderMatching (dState d) = placeholderMatching (inflight s)
       ∧ promptData (dState d) = promptData (inflight s)).
Proof.
  intros first.
  assert (Hwaiting : ∀ l,
    loadState (loadWaiting placeholder placeholderMatchingId txt l)
    = loadState l).
  { intros l. unfold loadWaiting. by destruct (negb _). }
  assert (Htimer : ∀ l,
    loadState (loadTimer placeholder placeholderMatchingId txt l)
    = loadState l).
  { intros l. unfold loadTimer. destruct (matchingPresent _ _); [|done].
    apply Hwaiting. }
  assert (Hfirst : placeholderMatching (loadState first)
    = <[placeholderMatchingId := msgId placeholder]> (placeholderMatching st)).
  { subst first. unfold placeholderLoading. by rewrite Hwaiting. }
  split; [done|]. split.
  { intros other Hne. rewrite Hfirst. by rewrite lookup_insert_ne. }
  split.
  { subst first. unfold placeholderLoading. by rewrite Hwaiting. }
  split; [by split|]. split.
  { induction n as [|n IH]; intros k l; [done|].
    cbn [loadRun]. destruct (loadArmed l); [|done].
    rewrite IH, Htimer. done. }
  split; [done|].
  intros webhookId message placeholderId http inflight s d. subst d.
  unfold triggerWorkflow, onPostError.
  destruct (postRejected http); [|done].
  destruct (triggers (inflight s) !! webhookId); [|done].
  by destruct (negb _).
Qed.

(** ** Calls in flight: further general facts *)

Section MoreCallFacts.
Context {D A : Type}.
Implicit Types (c : Call D A) (ex : Exchange D A) (evs : list (Event D)).

Lemma run_serves evs : ∀ ex c, serves ex c → serves ex (run evs c).
Proof.
  induction evs as [|e evs IH]; intros ex c Hs; [done|].
  apply (IH ex (step c e)). by apply step_serves.
Qed.

Lemma run_settlesOnce evs : ∀ ex c,
  settlesOnce ex c → settlesOnce ex (run evs c).
Proof.
  induction evs as [|e evs IH]; intros ex c Hs; [done|].
  apply (IH ex (step c e)). by apply step_settlesOnce.
Qed.

(** Events never change what was registered or called, except for the
    callback when it runs. *)
Lemma step_registered c e :
  connectCb c = None →
  connectCb (step c e) = None ∧ listener (step c e) = listener c
  ∧ ipcLog (step c e) = ipcLog c.
Proof.
  intros Hcb. destruct e as [|ty d|ms]; simpl.
  - by rewrite Hcb.
  - destruct (listener c) as [ex|] eqn:Hl; [|by rewrite Hl].
    case_bool_decide; simpl; by rewrite ?Hl.
  - destruct (timer c) as [r|]; [|done]. by destruct (r <=? ms)%N.
Qed.

Lemma run_registered evs : ∀ c,
  connectCb c = None →
  connectCb (run evs c) = None ∧ listener (run evs c) = listener c
  ∧ ipcLog (run evs c) = ipcLog c.
Proof.
  induction evs as [|e evs IH]; intros c Hcb; [done|].
  destruct (step_registered c e Hcb) as (H1 & H2 & H3).
  destruct (IH (step c e) H1) as (H4 & H5 & H6).
  change (run (e :: evs) c) with (run evs (step c e)).
  by rewrite H5, H6, H2, H3.
Qed.

(** The callback runs at most once: one [emit] and one [on], and the
    listener stays registered whatever happens afterwards. *)
Lemma run_wire evs : ∀ ex c,
  connectCb c = Some ex → listener c = None →
  ipcLog (run evs c)
  = ipcLog c ++ (if connects evs then callbackCalls ex else [])
  ∧ listener (run evs c) = (if connects evs then Some ex else None).
Proof.
  induction evs as [|e evs IH]; intros ex c Hcb Hl.
  { simpl. by rewrite app_nil_r. }
  change (run (e :: evs) c) with (run evs (step c e)).
  destruct e as [|ty d|ms].
  - cbn [connects].
    destruct (run_registered evs (step c Connected)) as (_ & H2 & H3).
    { simpl. by rewrite Hcb. }
    rewrite H2, H3. simpl. by rewrite Hcb.
  - assert (Hsame : step c (Inbound ty d) = c) by (simpl; by rewrite Hl).
    rewrite Hsame. by apply IH.
  - cbn [connects].
    assert (Hkeep : connectCb (step c (Elapse ms)) = connectCb c
                    ∧ listener (step c (Elapse ms)) = listener c
                    ∧ ipcLog (step c (Elapse ms)) = ipcLog c).
    { simpl. destruct (timer c) as [r|]; [|done].
      by destruct (r <=? ms)%N. }
    destruct Hkeep as (Hk1 & Hk2 & Hk3).
    destruct (IH ex (step c (Elapse ms))) as [H1 H2];
      [by rewrite Hk1|by rewrite Hk2|].
    by rewrite H1, H2, Hk3.
Qed.

(** A pending call whose timer is armed is settled once the time on the
    timer has passed, by an answer or by the timer. *)
Lemma run_eventually_settled evs : ∀ ex c r,
  serves ex c → settlesOnce ex c →
  (∀ d, settled (exHandler ex d Pending) = true) →
  settled (onTimeout c Pending) = true →
  promise c = Pending → timer c = Some r → (0 < r)%N →
  (r <= elapsed evs)%N →
  settled (promise (run evs c)) = true.
Proof.
  induction evs as [|e evs IH]; intros ex c r Hs Hso Hh Hto Hp Ht Hr He.
  { simpl in He. lia. }
  change (run (e :: evs) c) with (run evs (step c e)).
  assert (Hdone : ∀ c', c' = step c e → settled (promise c') = true →
                        settled (promise (run evs c')) = true).
  { intros c' -> Hc'. rewrite (run_settled evs ex); [done| | |done].
    - by apply step_serves.
    - by apply step_settlesOnce. }
  destruct e as [|ty d|ms]; simpl in He.
  - apply (IH ex (step c Connected) r);
      first [ by apply step_serves | by apply step_settlesOnce | done
            | by rewrite step_onTimeout
            | simpl; by destruct (connectCb c) ].
  - destruct (listener c) as [ex'|] eqn:Hl.
    + assert (ex' = ex) as ->.
      { destruct Hs as [[_ Hn]|[_ Hn]]; congruence. }
      destruct (decide (ty = exType ex)) as [->|Hne].
      * apply Hdone; [done|]. simpl.
        rewrite Hl, bool_decide_eq_true_2 by done. simpl.
        by rewrite Hp.
      * assert (Hsame : step c (Inbound ty d) = c).
        { simpl. by rewrite Hl, bool_decide_eq_false_2. }
        rewrite Hsame. by apply (IH ex c r).
    + assert (Hsame : step c (Inbound ty d) = c) by (simpl; by rewrite Hl).
      rewrite Hsame. by apply (IH ex c r).
  - destruct (N.leb_spec r ms) as [Hfire|Hcont].
    + apply Hdone; [done|]. simpl. rewrite Ht.
      rewrite (proj2 (N.leb_le r ms)) by done. simpl. by rewrite Hp.
    + assert (Hno : (r <=? ms)%N = false) by (apply N.leb_gt; lia).
      apply (IH ex (step c (Elapse ms)) (r - ms)%N);
        first [ by apply step_serves | by apply step_settlesOnce | done
              | by rewrite step_onTimeout | lia
              | simpl; by rewrite Ht, Hno ].
Qed.

(** A call without a timer stays pending as long as no message of the
    exchanged type arrives, however much time passes. *)
Lemma run_untimed_silent evs : ∀ ex c,
  serves ex c → promise c = Pending → timer c = None →
  silent (exType ex) evs = true →
  promise (run evs c) = Pending ∧ timer (run evs c) = None.
Proof.
  induction evs as [|e evs IH]; intros ex c Hs Hp Ht Hq; [done|].
  change (run (e :: evs) c) with (run evs (step c e)).
  destruct e as [|ty d|ms]; simpl in Hq.
  - apply (IH ex); [by apply step_serves| | |done];
      simpl; by destruct (connectCb c).
  - apply andb_true_iff in Hq as [Hty Hq].
    apply negb_true_iff, bool_decide_eq_false in Hty.
    assert (Hsame : step c (Inbound ty d) = c).
    { simpl. destruct Hs as [[_ ->]|[_ ->]]; [done|].
      by rewrite bool_decide_eq_false_2. }
    rewrite Hsame. by apply (IH ex).
  - assert (Hsame : step c (Elapse ms) = c) by (simpl; by rewrite Ht).
    rewrite Hsame. by apply (IH ex).
Qed.
End MoreCallFacts.

(** ** connection, execution and ipcRequest on the wire *)

(** X1. With credentials present, if no 'credentials' message arrives
    before 15000 ms have passed, the promise of [connection] is rejected
    with 'timeout', and nothing that happens later (a late answer
    included) changes that. *)
Theorem connection_times_out credentials pre post :
  credentialsMissing credentials = false →
  silent "credentials" pre = true →
  (15000 <= elapsed pre)%N →
  promise (run (pre ++ post) (connection credentials)) = Rejected "timeout".
Proof.
  intros Hok Hsilent Hlate.
  destruct (connection_serves credentials Hok) as (Hs & Hso & Hp & Ht).
  rewrite (run_timeout pre (credentialsExchange credentials) _ 15000%N post);
    try done.
  - unfold connection. by rewrite Hok.
  - unfold connection. by rewrite Hok.
Qed.

Lemma connection_times_out_witness :
  promise (run ([Connected; Elapse 15000]
                ++ [Inbound "credentials" "ready"])
             (connection someCredentials))
  = Rejected "timeout".
Proof.
  apply (connection_times_out someCredentials [Connected; Elapse 15000]
           [Inbound "credentials" "ready"]); [reflexivity|reflexivity|].
  vm_compute. discriminate.
Defined.

(** X2. With credentials present, whatever happens to the call,
    [connection] sets the retry interval to 1500 and connects to 'bot';
    once node-ipc has run the callback it has emitted 'credentials' exactly
    once, carrying the credentials it was given, and registered one
    listener, which is still registered after the promise is settled (by
    an answer or by the timeout). Before the callback runs nothing is
    emitted. *)
Theorem connection_wire credentials evs :
  credentialsMissing credentials = false →
  let call := run evs (connection credentials) in
  ipcLog call
  = [SetRetry 1500; ConnectTo "bot"]
    ++ (if connects evs
        then [Emit "credentials" (CredentialsPayload credentials);
              On "credentials"]
        else [])
  ∧ listener call
    = (if connects evs then Some (credentialsExchange credentials) else None).
Proof.
  intros Hok call. subst call.
  destruct (run_wire evs (credentialsExchange credentials)
              (connection credentials)) as [Hlog Hl].
  - unfold connection. by rewrite Hok.
  - unfold connection. by rewrite Hok.
  - rewrite Hlog, Hl. split; [|done]. unfold connection. by rewrite Hok.
Qed.

Lemma connection_wire_witness :
  ipcLog (run [Connected; Elapse 20000; Inbound "credentials" "ready";
               Connected]
            (connection someCredentials))
  = [SetRetry 1500; ConnectTo "bot";
     Emit "credentials" (CredentialsPayload someCredentials);
     On "credentials"].
Proof.
  apply (connection_wire someCredentials
           [Connected; Elapse 20000; Inbound "credentials" "ready";
            Connected]).
  reflexivity.
Defined.

(** X3. With credentials present, the promise of [connection] is never
    pending once 15000 ms have passed, whatever arrived or did not arrive
    in the meantime. *)
Theorem connection_settles_in_time credentials evs :
  credentialsMissing credentials = false →
  (15000 <= elapsed evs)%N →
  settled (promise (run evs (connection credentials))) = true.
Proof.
  intros Hok Hlate.
  destruct (connection_serves credentials Hok) as (Hs & Hso & Hp & Ht).
  apply (run_eventually_settled evs (credentialsExchange credentials)
           _ 15000%N); try done.
  - apply credentialsHandler_settles.
  - unfold connection. by rewrite Hok.
Qed.

Lemma connection_settles_in_time_witness :
  settled (promise (run [Elapse 7000; Inbound "credentials" "ready";
                         Connected; Elapse 8000]
                      (connection someCredentials))) = true.
Proof.
  apply (connection_settles_in_time someCredentials
           [Elapse 7000; Inbound "credentials" "ready"; Connected;
            Elapse 8000]); [reflexivity|].
  vm_compute. discriminate.
Defined.

(** X4. Whatever happens to the call, [execution] connects to 'bot'
    without setting the retry interval, and once node-ipc has run the
    callback it has emitted 'execution' exactly once, carrying the five
    arguments as given, and registered one listener. *)
Theorem execution_wire executionId placeholderId channelId apiKey userId evs :
  ipcLog (run evs (execution executionId placeholderId channelId apiKey
                     userId))
  = ConnectTo "bot"
    :: (if connects evs
        then [Emit "execution"
                (ExecutionPayload
                   {| executionId := executionId;
                      placeholderId := placeholderId;
                      channelId := channelId;
                      executionApiKey := apiKey;
                      userId := userId |});
              On "execution"]
        else []).
Proof.
  destruct (run_wire evs
              (executionExchange
                 {| executionId := executionId;
                    placeholderId := placeholderId; channelId := channelId;
                    executionApiKey := apiKey; userId := userId |})
              (execution executionId placeholderId channelId apiKey userId))
    as [Hlog _]; [done|done|].
  by rewrite Hlog.
Qed.

Lemma ipcRequest_serves {D} type parameters :
  serves (requestExchange type parameters) (@ipcRequest D type parameters)
  ∧ settlesOnce (requestExchange type parameters)
      (@ipcRequest D type parameters).
Proof.
  split; [by left|]. split; simpl.
  - done.
  - intros d p. apply resolve_settled.
Qed.

(** X5. [ipcRequest] has no timeout: as long as no message of the
    requested type arrives its promise stays pending, however much time
    passes. The first message of that type that arrives after the callback
    has run resolves it with the data received, and later messages do not
    change the result. It is never rejected. *)
Theorem ipcRequest_no_timeout {D} type parameters
    (pre post : list (Event D)) (data : D) :
  silent type pre = true →
  promise (run pre (ipcRequest type parameters)) = Pending
  ∧ (connects pre = true →
     promise (run (pre ++ Inbound type data :: post)
                (ipcRequest type parameters)) = Resolved data).
Proof.
  intros Hsilent.
  destruct (@ipcRequest_serves D type parameters) as [Hs Hso].
  destruct (run_untimed_silent pre (requestExchange type parameters)
              (ipcRequest type parameters) Hs eq_refl eq_refl Hsilent)
    as [Hp Ht].
  split; [done|]. intros Hconn.
  rewrite run_app.
  set (c1 := run pre (ipcRequest type parameters)) in *.
  destruct (run_wire pre (requestExchange type parameters)
              (@ipcRequest D type parameters) eq_refl eq_refl) as [_ Hl].
  fold c1 in Hl. rewrite Hconn in Hl.
  change (run (Inbound type data :: post) c1)
    with (run post (step c1 (Inbound type data))).
  assert (Hstep : promise (step c1 (Inbound type data)) = Resolved data).
  { simpl. rewrite Hl. simpl. rewrite bool_decide_eq_true_2 by done.
    simpl. by rewrite Hp. }
  rewrite (run_settled post (requestExchange type parameters)).
  - done.
  - apply step_serves. by apply run_serves.
  - apply step_settlesOnce. by apply run_settlesOnce.
  - by rewrite Hstep.
Qed.

Lemma ipcRequest_no_timeout_witness :
  promise (run [Connected; Elapse 1000000; Inbound "other" (JsNum 1)]
             (ipcRequest "send:prompt" NoPayload))
  = Pending
  ∧ promise (run ([Connected; Elapse 1000000; Inbound "other" (JsNum 1)]
                  ++ [Inbound "send:prompt" (JsNum 7);
                      Inbound "send:prompt" (JsNum 8)])
               (ipcRequest "send:prompt" NoPayload))
    = Resolved (JsNum 7).
Proof.
  destruct (ipcRequest_no_timeout "send:prompt" NoPayload
              [Connected; Elapse 1000000; Inbound "other" (JsNum 1)]
              [Inbound "send:prompt" (JsNum 8)] (JsNum 7) eq_refl)
    as [Hpending Hanswer].
  split; [exact Hpending|exact (Hanswer eq_refl)].
Defined.

(** ** getRoles and getChannels: the degraded results *)

Lemma rolesRequest_serves :
  serves rolesExchange rolesRequest ∧ settlesOnce rolesExchange rolesRequest.
Proof.
  split; [by left|]. split; simpl.
  - intros p. apply resolve_settled.
  - intros d p. apply resolve_settled.
Qed.

Lemma channelsRequest_serves :
  serves channelsExchange channelsRequest
  ∧ settlesOnce channelsExchange channelsRequest.
Proof.
  split; [by left|]. split; simpl.
  - intros p. apply resolve_settled.
  - intros d p. apply resolve_settled.
Qed.

(** Without an answer in 5000 ms both listings resolve with the empty
    string. *)
Lemma rolesRequest_times_out listing :
  silent "list:roles" listing = true → (5000 <= elapsed listing)%N →
  promise (run listing rolesRequest) = Resolved (RolesOther (JsStr "")).
Proof.
  intros Hsilent Hlate. destruct rolesRequest_serves as [Hs Hso].
  rewrite <- (app_nil_r listing).
  by rewrite (run_timeout listing rolesExchange rolesRequest 5000%N []).
Qed.

Lemma channelsRequest_times_out listing :
  silent "list:channels" listing = true → (5000 <= elapsed listing)%N →
  promise (run listing channelsRequest)
  = Resolved (ChannelsOther (JsStr "")).
Proof.
  intros Hsilent Hlate. destruct channelsRequest_serves as [Hs Hso].
  rewrite <- (app_nil_r listing).
  by rewrite (run_timeout listing channelsExchange channelsRequest
                5000%N []).
Qed.

(** X6. When the negotiation settles on anything but 'ready' or 'already'
    (a rejection reason, or an answer of the bot that [connection] passed
    through as a success), [getRoles] and [getChannels] both return the
    single option named by that string followed by the closing hint, with
    value 'false', and what happens on the listing exchange is
    irrelevant. *)
Theorem negotiation_failure_option credentials negotiation res
    (roles : list (Event RolesData)) (channels : list (Event ChannelsData)) :
  caught (λ e, e) (promise (run negotiation (connection credentials)))
  = Some res →
  res ≠ "ready" → res ≠ "already" →
  getRoles credentials negotiation roles
  = Some [NamedOption (res +:+ endMessage) "false"]
  ∧ getChannels credentials negotiation channels
    = Some [NamedOption (res +:+ endMessage) "false"].
Proof.
  intros Hres Hr Ha.
  assert (Hnot : includes ["ready"; "already"] res = false).
  { unfold includes. apply bool_decide_eq_false_2.
    rewrite !elem_of_cons, elem_of_nil. tauto. }
  unfold getRoles, getChannels. by rewrite Hres, Hnot.
Qed.

Lemma negotiation_failure_option_witness :
  getRoles someCredentials [Connected; Inbound "credentials" "starting"] []
  = Some [NamedOption ("starting" +:+ endMessage) "false"]
  ∧ getChannels someCredentials [Connected; Inbound "credentials" "starting"]
      [Connected; Inbound "list:channels" (ChannelsArray [])]
    = Some [NamedOption ("starting" +:+ endMessage) "false"].
Proof.
  apply (negotiation_failure_option someCredentials
           [Connected; Inbound "credentials" "starting"] "starting");
    [reflexivity|discriminate|discriminate].
Defined.

(** X7. What the user of the dropdown sees when the negotiation fails:
    'credentials missing' when the credentials are absent or incomplete
    (whatever happens on the channel), 'timeout' when the bot does not
    answer in 15000 ms, and 'Invalid credentials' when the bot answers
    'error' in time; each followed by the closing hint. *)
Theorem getRoles_failure_messages credentials negotiation listing :
  (credentialsMissing credentials = true →
   getRoles credentials negotiation listing
   = Some [NamedOption ("credentials missing" +:+ endMessage) "false"])
  ∧ (credentialsMissing credentials = false →
     silent "credentials" negotiation = true →
     (15000 <= elapsed negotiation)%N →
     getRoles credentials negotiation listing
     = Some [NamedOption ("timeout" +:+ endMessage) "false"])
  ∧ (credentialsMissing credentials = false →
     connects negotiation = true →
     silent "credentials" negotiation = true →
     (elapsed negotiation < 15000)%N →
     getRoles credentials (negotiation ++ [Inbound "credentials" "error"])
       listing
     = Some [NamedOption ("Invalid credentials" +:+ endMessage) "false"]).
Proof.
  split; [|split].
  - intros Hmiss.
    assert (Hp : promise (run negotiation (connection credentials))
                 = Rejected "credentials missing").
    { unfold connection. rewrite Hmiss. clear.
      induction negotiation as [|e evs IH]; [done|]. by destruct e. }
    unfold getRoles. by rewrite Hp.
  - intros Hok Hsilent Hlate.
    destruct (connection_serves credentials Hok) as (Hs & Hso & Hp & Ht).
    assert (Hto : promise (run negotiation (connection credentials))
                  = Rejected "timeout").
    { rewrite <- (app_nil_r negotiation).
      rewrite (run_timeout negotiation (credentialsExchange credentials)
                 _ 15000%N []); try done.
      - unfold connection. by rewrite Hok.
      - unfold connection. by rewrite Hok. }
    unfold getRoles. by rewrite Hto.
  - intros Hok Hconn Hsilent Hearly.
    destruct (connection_serves credentials Hok) as (Hs & Hso & Hp & Ht).
    assert (Herr : promise (run (negotiation ++ [Inbound "credentials" "error"])
                              (connection credentials))
                   = Rejected "Invalid credentials").
    { rewrite (run_response negotiation (credentialsExchange credentials)
                 _ 15000%N "error" []);
        auto using credentialsHandler_settles. }
    unfold getRoles. by rewrite Herr.
Qed.

Lemma getRoles_failure_messages_witness :
  getRoles (Some {| clientId := Some "1042"; token := Some "";
                    apiKey := None |})
    [Connected; Inbound "credentials" "ready"]
    [Connected; Inbound "list:roles" (RolesArray [])]
  = Some [NamedOption ("credentials missing" +:+ endMessage) "false"]
  ∧ getRoles someCredentials [Connected; Elapse 15000] []
    = Some [NamedOption ("timeout" +:+ endMessage) "false"]
  ∧ getRoles someCredentials
      ([Connected; Elapse 3] ++ [Inbound "credentials" "error"]) []
    = Some [NamedOption ("Invalid credentials" +:+ endMessage) "false"].
Proof.
  split; [|split].
  - apply (getRoles_failure_messages
             (Some {| clientId := Some "1042"; token := Some "";
                      apiKey := None |})). reflexivity.
  - apply (getRoles_failure_messages someCredentials [Connected; Elapse 15000]);
      [reflexivity|reflexivity|vm_compute; discriminate].
  - apply (getRoles_failure_messages someCredentials [Connected; Elapse 3]);
      reflexivity.
Defined.

(** X8. After a successful negotiation, [getRoles] degrades as follows:
    without an answer on 'list:roles' in 5000 ms, or with a falsy answer,
    the single option is 'Unexpected error' (without the closing hint);
    with a truthy answer that is not an array it is 'Something went wrong'
    followed by the closing hint. *)
Theorem getRoles_listing_degraded credentials negotiation listing :
  (promise (run negotiation (connection credentials)) = Resolved "ready"
   ∨ promise (run negotiation (connection credentials)) = Resolved "already") →
  (silent "list:roles" listing = true → (5000 <= elapsed listing)%N →
   getRoles credentials negotiation listing
   = Some [NamedOption "Unexpected error" "false"])
  ∧ (∀ v, promise (run listing rolesRequest) = Resolved (RolesOther v) →
     getRoles credentials negotiation listing
     = Some [NamedOption
               (if truthy v then "Something went wrong" +:+ endMessage
                else "Unexpected error") "false"]).
Proof.
  intros Hneg. split.
  - intros Hsilent Hlate. unfold getRoles.
    rewrite (rolesRequest_times_out listing Hsilent Hlate).
    by destruct Hneg as [-> | ->].
  - intros v Hv. unfold getRoles. rewrite Hv.
    destruct Hneg as [-> | ->]; simpl; by destruct (truthy v).
Qed.

Lemma getRoles_listing_degraded_witness :
  getRoles someCredentials [Connected; Inbound "credentials" "ready"]
    [Connected; Elapse 5000]
  = Some [NamedOption "Unexpected error" "false"]
  ∧ getRoles someCredentials [Connected; Inbound "credentials" "ready"]
      [Connected; Inbound "list:roles" (RolesOther JsObject)]
    = Some [NamedOption ("Something went wrong" +:+ endMessage) "false"].
Proof.
  destruct (getRoles_listing_degraded someCredentials
              [Connected; Inbound "credentials" "ready"]
              [Connected; Elapse 5000]) as [Hto _]; [by left|].
  destruct (getRoles_listing_degraded someCredentials
              [Connected; Inbound "credentials" "ready"]
              [Connected; Inbound "list:roles" (RolesOther JsObject)])
    as [_ Hother]; [by left|].
  split.
  - apply Hto; [reflexivity|vm_compute; discriminate].
  - apply (Hother JsObject). reflexivity.
Defined.

(** X9. Whatever the inputs, a result of [getRoles] is never the empty
    array, never contains a role named '@everyone', and every option in it
    that is not a role has the value 'false'. *)
Theorem getRoles_result_shape credentials negotiation listing options :
  getRoles credentials negotiation listing = Some options →
  options ≠ []
  ∧ Forall (λ o, match o with
                 | RoleOption r => name r ≠ "@everyone"
                 | NamedOption _ v => v = "false"
                 end) options.
Proof.
  unfold getRoles. intros Hres.
  assert (Hone : ∀ m, [NamedOption m "false"] ≠ []
    ∧ Forall (λ o, match o with
                   | RoleOption r => name r ≠ "@everyone"
                   | NamedOption _ v => v = "false"
                   end) [NamedOption m "false"]).
  { intros m. split; [done|]. by repeat constructor. }
  destruct (caught _ (promise (run negotiation _))) as [res|]; [|done].
  destruct (negb (includes _ res)); [injection Hres as <-; apply Hone|].
  destruct (caught _ (promise (run listing _))) as [roles|]; [|done].
  destruct (rolesTruthy roles); [|injection Hres as <-; apply Hone].
  destruct roles as [l|v]; [|injection Hres as <-; apply Hone].
  assert (Hkept : Forall notEveryone (filter notEveryone l)).
  { apply Forall_forall. intros r Hin.
    by apply list_elem_of_filter in Hin as [? _]. }
  destruct (filter notEveryone l) as [|r kept];
    cbn [length Nat.eqb negb] in Hres; injection Hres as <-; [apply Hone|].
  split; [done|].
  apply (proj2 (Forall_fmap RoleOption _ (r :: kept))). exact Hkept.
Qed.

Lemma getRoles_result_shape_witness :
  let options :=
    [RoleOption {| name := "admin"; id := "2" |};
     RoleOption {| name := "mod"; id := "3" |}] in
  options ≠ []
  ∧ Forall (λ o, match o with
                 | RoleOption r => name r ≠ "@everyone"
                 | NamedOption _ v => v = "false"
                 end) options.
Proof.
  apply (getRoles_result_shape someCredentials
           [Connected; Inbound "credentials" "already"]
           [Connected;
            Inbound "list:roles"
              (RolesArray [{| name := "admin"; id := "2" |};
                           {| name := "@everyone"; id := "1" |};
                           {| name := "mod"; id := "3" |}])]).
  reflexivity.
Defined.

(** X10. Neither [getRoles] nor [getChannels] keeps its caller waiting:
    once 15000 ms have passed on the negotiation and 5000 ms on the
    listing, each has returned a result, whatever arrived or did not. *)
Theorem resolvers_return credentials negotiation
    (roles : list (Event RolesData)) (channels : list (Event ChannelsData)) :
  (15000 <= elapsed negotiation)%N →
  (5000 <= elapsed roles)%N → (5000 <= elapsed channels)%N →
  is_Some (getRoles credentials negotiation roles)
  ∧ is_Some (getChannels credentials negotiation channels).
Proof.
  intros Hneg Hroles Hchannels.
  assert (H1 : settled (promise (run negotiation (connection credentials)))
               = true).
  { destruct (credentialsMissing credentials) eqn:Hm.
    - unfold connection. rewrite Hm. clear.
      induction negotiation as [|e evs IH]; [done|]. by destruct e.
    - destruct (connection_serves credentials Hm) as (Hs & Hso & Hp & Ht).
      apply (run_eventually_settled negotiation
               (credentialsExchange credentials) _ 15000%N); try done.
      + apply credentialsHandler_settles.
      + unfold connection. by rewrite Hm. }
  assert (H2 : settled (promise (run roles rolesRequest)) = true).
  { destruct rolesRequest_serves as [Hs Hso].
    by apply (run_eventually_settled roles rolesExchange _ 5000%N). }
  assert (H3 : settled (promise (run channels channelsRequest)) = true).
  { destruct channelsRequest_serves as [Hs Hso].
    by apply (run_eventually_settled channels channelsExchange _ 5000%N). }
  unfold getRoles, getChannels.
  destruct (promise (run negotiation _)) as [|res|res]; [done| |];
    cbn [caught];
    (destruct (negb (includes _ res)); [by split|]);
    (destruct (promise (run roles _)) as [|r|r]; [done| |]);
    (destruct (promise (run channels _)) as [|c|c]; [done| |]);
    cbn [caught]; split;
    repeat (match goal with
            | |- is_Some (Some _) => by eexists
            | |- context [if ?b then _ else _] => destruct b
            | |- context [match ?x with _ => _ end] => destruct x
            end).
Qed.

Lemma resolvers_return_witness :
  is_Some (getRoles someCredentials
             [Connected; Elapse 9000; Inbound "credentials" "ready";
              Elapse 6000]
             [Elapse 5000])
  ∧ is_Some (getChannels someCredentials
               [Connected; Elapse 9000; Inbound "credentials" "ready";
                Elapse 6000]
               [Connected; Inbound "list:channels" (ChannelsArray []);
                Elapse 5000]).
Proof.
  apply (resolvers_return someCredentials
           [Connected; Elapse 9000; Inbound "credentials" "ready";
            Elapse 6000]); vm_compute; discriminate.
Defined.

(** X11. After a successful negotiation, [getChannels] returns the
    channels received on 'list:channels' as they are, all of them and in
    their order, when the array is not empty. For an empty array, and for
    a truthy answer that is not an array, it returns the single 'no text
    channels' option; for a falsy answer, and without an answer in
    5000 ms, the single option 'Unexpected error'. *)
Theorem getChannels_listing credentials negotiation listing :
  (promise (run negotiation (connection credentials)) = Resolved "ready"
   ∨ promise (run negotiation (connection credentials)) = Resolved "already") →
  (∀ first rest,
     promise (run listing channelsRequest)
     = Resolved (ChannelsArray (first :: rest)) →
     getChannels credentials negotiation listing
     = Some (channelOption <$> first :: rest))
  ∧ (promise (run listing channelsRequest) = Resolved (ChannelsArray []) →
     getChannels credentials negotiation listing
     = Some [NamedOption noChannelsMessage "false"])
  ∧ (∀ v, promise (run listing channelsRequest)
          = Resolved (ChannelsOther v) →
     getChannels credentials negotiation listing
     = Some [NamedOption
               (if truthy v then noChannelsMessage else "Unexpected error")
               "false"])
  ∧ (silent "list:channels" listing = true → (5000 <= elapsed listing)%N →
     getChannels credentials negotiation listing
     = Some [NamedOption "Unexpected error" "false"]).
Proof.
  intros Hneg. unfold getChannels. repeat split.
  - intros first rest ->. by destruct Hneg as [-> | ->].
  - intros ->. by destruct Hneg as [-> | ->].
  - intros v ->. destruct Hneg as [-> | ->]; simpl; by destruct (truthy v).
  - intros Hsilent Hlate.
    rewrite (channelsRequest_times_out listing Hsilent Hlate).
    by destruct Hneg as [-> | ->].
Qed.

Lemma getChannels_listing_witness :
  let general := {| channelName := "general"; channelValue := "11" |} in
  let dev := {| channelName := "dev"; channelValue := "12" |} in
  getChannels someCredentials [Connected; Inbound "credentials" "ready"]
    [Connected; Inbound "list:channels" (ChannelsArray [general; dev])]
  = Some [NamedOption "general" "11"; NamedOption "dev" "12"].
Proof.
  intros general dev.
  destruct (getChannels_listing someCredentials
              [Connected; Inbound "credentials" "ready"]
              [Connected;
               Inbound "list:channels" (ChannelsArray [general; dev])])
    as [Hall _]; [by left|].
  apply (Hall general [dev]). reflexivity.
Defined.

(** ** addLog: batches and the rest of the state *)

(** X12. After any number of calls of [addLog] from a state with at most
    100 lines, the log holds the last 100 of all the lines (the stored ones
    followed by the new ones, in order), or all of them if they are fewer;
    its length is the smaller of 100 and their number. *)
Theorem addLog_batch_keeps_last_100 entries client st :
  (length (logs st) <= 100)%nat →
  let all := logs st ++ map (λ e, logLine e.1 e.2) entries in
  let final := addLogs entries client st in
  logs final = drop (length all - 100) all
  ∧ length (logs final) = (length all `min` 100)%nat
  ∧ (∀ line, line ∈ logs final → line ∈ all).
Proof.
  intros Hle all final.
  assert (Hlogs : logs final = drop (length all - 100) all)
    by (by apply addLogs_logs).
  split; [done|]. split.
  - rewrite Hlogs, length_drop. lia.
  - intros line. rewrite Hlogs. intros Hin.
    rewrite <- (take_drop (length all - 100) all).
    apply elem_of_app. by right.
Qed.

Lemma addLog_batch_keeps_last_100_witness :
  logs (addLogs [("t1", "a"); ("t2", "b"); ("t3", "c")] noClient
          (set_logs (replicate 99 "old") emptyState))
  = replicate 97 "old" ++ [logLine "t1" "a"; logLine "t2" "b";
                           logLine "t3" "c"].
Proof.
  destruct (addLog_batch_keeps_last_100
              [("t1", "a"); ("t2", "b"); ("t3", "c")] noClient
              (set_logs (replicate 99 "old") emptyState)) as [Hlogs _].
  - vm_compute. lia.
  - rewrite Hlogs. reflexivity.
Defined.

(** X13. One call of [addLog] makes the log one line longer while it holds
    fewer than 100 lines and keeps its length otherwise (so a log that was
    made longer than 100 from outside is never brought back under the
    bound); it changes no other field of the state. *)
Theorem addLog_touches_only_logs now message client st :
  let st' := (addLog now message client st).1 in
  length (logs st')
  = (if decide (length (logs st) < 100)%nat
     then S (length (logs st)) else length (logs st))
  ∧ st' = set_logs (logs st') st.
Proof.
  intros st'. split; [|done]. subst st'. rewrite addLog_logs.
  rewrite length_app. simpl.
  destruct (Z.ltb_spec 99 (Z.of_nat (length (logs st))));
    case_decide; try lia.
  rewrite length_drop. lia.
Qed.

(** ** triggerWorkflow: what it leaves alone *)

Lemma set_triggers_same st : set_triggers (triggers st) st = st.
Proof. by destruct st. Qed.

(** X14. Whatever the outcome of the POST, [triggerWorkflow] registers and
    removes no trigger, changes the configuration of none, never turns an
    inactive trigger active, and leaves the triggers of all other webhooks
    and all other fields of the state as they are. *)
Theorem triggerWorkflow_never_activates
    webhookId message placeholderId http inflight st :
  let st1 := inflight st in
  let d := triggerWorkflow webhookId message placeholderId http inflight st in
  (∀ k, is_Some (triggers (dState d) !! k) ↔ is_Some (triggers st1 !! k))
  ∧ (∀ k t', triggers (dState d) !! k = Some t' →
       ∃ t, triggers st1 !! k = Some t
            ∧ triggerConfig t' = triggerConfig t
            ∧ (active t' = true → active t = true)
            ∧ (k ≠ webhookId → t' = t))
  ∧ dState d = set_triggers (triggers (dState d)) st1.
Proof.
  intros st1 d. subst d. unfold triggerWorkflow, onPostError. fold st1.
  assert (Hsame :
    (∀ k, is_Some (triggers st1 !! k) ↔ is_Some (triggers st1 !! k))
    ∧ (∀ k t', triggers st1 !! k = Some t' →
         ∃ t, triggers st1 !! k = Some t
              ∧ triggerConfig t' = triggerConfig t
              ∧ (active t' = true → active t = true)
              ∧ (k ≠ webhookId → t' = t))
    ∧ st1 = set_triggers (triggers st1) st1).
  { split; [done|]. split; [|by rewrite set_triggers_same].
    intros k t' Hk. by exists t'. }
  destruct (postRejected http); [|exact Hsame].
  destruct (triggers st1 !! webhookId) as [t|] eqn:Ht; [|exact Hsame].
  destruct (testMode st1); [exact Hsame|]. simpl.
  split; [|split; [|done]].
  - intros k. destruct (decide (k = webhookId)) as [->|Hne].
    + rewrite lookup_insert_eq, Ht. split; eauto.
    + by rewrite lookup_insert_ne.
  - intros k t' Hk. destruct (decide (k = webhookId)) as [->|Hne].
    + rewrite lookup_insert_eq in Hk. injection Hk as <-.
      exists t. by repeat split.
    + rewrite lookup_insert_ne in Hk by done. by exists t'.
Qed.

(** X15. When the POST fails (no answer, or a status outside 200..299)
    and no trigger is registered for the webhook, [triggerWorkflow] changes
    nothing in the state, makes no call on the channel, and resolves
    false. *)
Theorem triggerWorkflow_failure_unregistered
    webhookId message placeholderId http inflight st :
  postRejected http = true →
  triggers (inflight st) !! webhookId = None →
  let d := triggerWorkflow webhookId message placeholderId http
             inflight st in
  dState d = inflight st ∧ dispatchedIpc d = [] ∧ dResult d = false.
Proof.
  intros Hfail Hnone d. subst d. unfold triggerWorkflow, onPostError.
  by rewrite Hfail, Hnone.
Qed.

Lemma triggerWorkflow_failure_unregistered_witness :
  let d := triggerWorkflow "unknown" someMessage "p1" HttpError (λ st, st)
             liveState in
  dState d = liveState ∧ dispatchedIpc d = [] ∧ dResult d = false.
Proof.
  apply (triggerWorkflow_failure_unregistered "unknown" someMessage "p1"
           HttpError (λ st, st) liveState); reflexivity.
Defined.

(** X16. A failed dispatch for a webhook whose trigger a previous failed
    dispatch has deactivated leaves the state as it is, and notifies the
    bot again with the same deactivated record: there is no memory of a
    notification already sent. *)
Theorem triggerWorkflow_failure_repeated
    webhookId message message' placeholderId placeholderId' http http'
    inflight st t :
  postRejected http = true → postRejected http' = true →
  triggers (inflight st) !! webhookId = Some t →
  testMode (inflight st) = false →
  let d1 := triggerWorkflow webhookId message placeholderId http
              inflight st in
  let d2 := triggerWorkflow webhookId message' placeholderId' http'
              (λ s, s) (dState d1) in
  dState d2 = dState d1
  ∧ dispatchedIpc d2 = dispatchedIpc d1
  ∧ dispatchedIpc d2
    = [ConnectTo "bot"; Emit "trigger" (TriggerPayload (Some (deactivate t)))].
Proof.
  intros Hfail Hfail' Ht Hlive d1 d2.
  assert (H1 : dState d1
               = set_triggers (<[webhookId := deactivate t]>
                                 (triggers (inflight st))) (inflight st)).
  { subst d1. unfold triggerWorkflow, onPostError.
    by rewrite Hfail, Ht, Hlive. }
  assert (Hipc1 : dispatchedIpc d1
    = [ConnectTo "bot"; Emit "trigger" (TriggerPayload (Some (deactivate t)))]).
  { subst d1. unfold dispatchedIpc, triggerWorkflow, onPostError.
    rewrite Hfail, Ht, Hlive. simpl. unfold triggerCallback. simpl.
    by rewrite lookup_insert_eq. }
  assert (H2 : dState d2 = dState d1
               ∧ dispatchedIpc d2
                 = [ConnectTo "bot";
                    Emit "trigger" (TriggerPayload (Some (deactivate t)))]).
  { subst d2. unfold dispatchedIpc, triggerWorkflow, onPostError.
    rewrite Hfail', H1. simpl. rewrite lookup_insert_eq, Hlive. simpl.
    unfold triggerCallback. simpl.
    rewrite insert_insert_eq, lookup_insert_eq. done. }
  destruct H2 as [H2 H3]. by rewrite H2, H3, Hipc1.
Qed.

Lemma triggerWorkflow_failure_repeated_witness :
  let d1 := triggerWorkflow "hook" someMessage "p1" HttpError (λ st, st)
              liveState in
  let d2 := triggerWorkflow "hook" someMessage "p2" (HttpResponse 503)
              (λ s, s) (dState d1) in
  dState d2 = dState d1 ∧ dispatchedIpc d2 = dispatchedIpc d1.
Proof.
  intros d1 d2.
  destruct (triggerWorkflow_failure_repeated "hook" someMessage someMessage
              "p1" "p2" HttpError (HttpResponse 503) (λ st, st) liveState
              {| active := true; triggerConfig := "cfg" |})
    as (Hst & Hipc & _); [reflexivity..|].
  split; [exact Hst|exact Hipc].
Defined.

(** ** pollingPromptData: any deadline, any world *)

Section MorePollFacts.
Context (w : World) (message : Message) (content : string).

(** A run of [waiting] past a deadline ends the loop, answered or not. *)
Lemma pollWaiting_past_deadline seconds p :
  seconds ≠ 0 → seconds < pollI p → pollPromise p = Pending →
  pollArmed (pollWaiting w message content seconds p) = false
  ∧ pollPromise (pollWaiting w message content seconds p) = Resolved true.
Proof.
  intros Hs Hi Hp.
  destruct (hasValueAt w message (pollClock p)) eqn:Hv.
  - by rewrite pollWaiting_answered, Hp.
  - by rewrite pollWaiting_deadline, Hp.
Qed.

(** One run of [waiting] on a pending loop: it either ends the loop with
    true, or counts one up and arms the next timer. *)
Lemma pollWaiting_progress seconds p :
  pollPromise p = Pending →
  let p' := pollWaiting w message content seconds p in
  (pollArmed p' = false ∧ pollPromise p' = Resolved true)
  ∨ (pollArmed p' = true ∧ pollPromise p' = Pending
     ∧ pollI p' = pollI p + 1).
Proof.
  intros Hp p'. subst p'. unfold pollWaiting. rewrite Hp.
  destruct (truthy _ || _); [left|right].
  - destruct (negb _); [|done]. by destruct (cacheGet _ _).
  - by destruct (negb (seconds =? 0) && _).
Qed.

Lemma pollRun_progress seconds n : ∀ p,
  pollArmed p = true → pollPromise p = Pending →
  let p' := pollRun w message content seconds n p in
  (pollArmed p' = false ∧ pollPromise p' = Resolved true)
  ∨ (pollArmed p' = true ∧ pollPromise p' = Pending
     ∧ pollI p' = pollI p + Z.of_nat n).
Proof.
  induction n as [|n IH]; intros p Harmed Hp; cbn zeta.
  { right. split; [done|]. split; [done|]. simpl. lia. }
  cbn [pollRun]. rewrite Harmed.
  destruct (pollWaiting_progress seconds p Hp) as [[Ha Hr]|(Ha & Hr & Hi)].
  - left. by rewrite pollRun_disarmed.
  - destruct (IH _ Ha Hr) as [Hdone|(Ha' & Hr' & Hi')]; [by left|].
    right. split; [done|]. split; [done|]. rewrite Hi', Hi. lia.
Qed.

Lemma pollWaiting_onMessage seconds p :
  Forall (onMessage message) (pollEffects p) →
  Forall (onMessage message) (pollEffects (pollWaiting w message content seconds p)).
Proof.
  intros Hp. unfold pollWaiting.
  destruct (truthy _ || _).
  - destruct (negb _); [|done].
    destruct (cacheGet _ _); simpl; apply Forall_app; split; try done;
      by repeat constructor.
  - destruct (negb (seconds =? 0) && _); [|done]. simpl.
    apply Forall_app. split; [done|]. by repeat constructor.
Qed.

Lemma pollRun_onMessage seconds n : ∀ p,
  Forall (onMessage message) (pollEffects p) →
  Forall (onMessage message) (pollEffects (pollRun w message content seconds n p)).
Proof.
  induction n as [|n IH]; intros p Hp; [done|].
  cbn [pollRun]. destruct (pollArmed p); [|done].
  by apply IH, pollWaiting_onMessage.
Qed.

(** While nobody answers and the deadline is not over, every run shows
    the seconds that are left and the next run is at least one second
    later. *)
Lemma pollRun_countdown seconds n : ∀ p j,
  (∀ t, hasValueAt w message t = false) → seconds ≠ 0 →
  pollArmed p = true → pollI p = Z.of_nat j →
  Z.of_nat j + Z.of_nat n - 1 <= seconds →
  let p' := pollRun w message content seconds n p in
  pollI p' = Z.of_nat (j + n) ∧ pollArmed p' = true
  ∧ pollPromise p' = pollPromise p
  ∧ pollEffects p'
    = pollEffects p ++ map (countdownEdit message content seconds) (seq j n)
  ∧ (pollClock p + 1000 * N.of_nat n <= pollClock p')%N.
Proof.
  induction n as [|n IH]; intros p j Hnever Hs Harmed Hi Hle; cbn zeta.
  { simpl. rewrite Nat.add_0_r, app_nil_r.
    split; [done|]. split; [done|]. split; [done|]. split; [done|]. lia. }
  cbn [pollRun]. rewrite Harmed.
  rewrite pollWaiting_countdown by (auto; lia).
  match goal with |- context [pollRun _ _ _ _ n ?q] => set (p1 := q) end.
  destruct (IH p1 (S j) Hnever Hs eq_refl) as (H1 & H2 & H3 & H4 & H5).
  { subst p1. cbn [pollI]. lia. }
  { lia. }
  split; [rewrite H1; f_equal; lia|]. split; [done|]. split; [done|].
  split.
  - rewrite H4. subst p1. cbn [pollEffects seq map].
    rewrite <- app_assoc. unfold countdownEdit at 2. by rewrite Hi.
  - subst p1. cbn [pollClock] in H5. lia.
Qed.
End MorePollFacts.

(** X17. With a deadline of s seconds, s a safe integer (1 <= s <=
    2^53 - 1), and a value that is never set,
    the loop shows the countdown s-1, s-2, ..., 0 in s successive edits
    (its promise pending all the while), and its run numbered s+1 ends it:
    the message is edited to the plain content, 'Timeout reached' is sent
    if the channel is cached then (always, if it is cached at all times),
    and the promise resolves true, no earlier than s seconds after the
    start. *)
Theorem pollingPromptData_counts_down w message content (s extra : nat)
    start :
  (1 <= s)%nat →
  Z.of_nat s <= MAX_SAFE_INTEGER →
  (∀ t, hasValueAt w message t = false) →
  let seconds := Z.of_nat s in
  let final :=
    pollingPromptData w message content seconds start (S s + extra) in
  (∀ m, (m <= s)%nat →
     let p := pollingPromptData w message content seconds start m in
     pollPromise p = Pending
     ∧ pollEffects p
       = map (λ k, MessageEdit (msgId message)
                     (content +:+ " (" +:+ pretty (seconds - Z.of_nat k)
                      +:+ "s)"))
           (seq 1 m))
  ∧ pollPromise final = Resolved true ∧ pollArmed final = false
  ∧ (∃ notice,
       pollEffects final
       = map (countdownEdit message content seconds) (seq 1 s)
         ++ MessageEditClear (msgId message) content :: notice
       ∧ (notice = []
          ∨ notice = [ChannelSend (msgChannelId message) "Timeout reached"])
       ∧ ((∀ t, cacheGet (clientAt w t) (msgChannelId message) = true) →
          notice = [ChannelSend (msgChannelId message) "Timeout reached"]))
  ∧ (start + 1000 * N.of_nat s <= pollClock final)%N.
Proof.
  intros Hs Hsafe Hnever seconds final.
  assert (Hne : seconds ≠ 0) by (subst seconds; lia).
  assert (Hruns : ∀ m, (m <= s)%nat →
    let p := pollingPromptData w message content seconds start m in
    pollI p = Z.of_nat (1 + m) ∧ pollArmed p = true
    ∧ pollPromise p = Pending
    ∧ pollEffects p = map (countdownEdit message content seconds) (seq 1 m)
    ∧ (start + 1000 * N.of_nat m <= pollClock p)%N).
  { intros m Hm p. subst p. unfold pollingPromptData.
    match goal with |- context [pollRun _ _ _ _ m ?q] =>
      pose proof (pollRun_countdown w message content seconds m q 1%nat
                    Hnever Hne eq_refl eq_refl) as Hcount
    end.
    assert (Hle : Z.of_nat 1 + Z.of_nat m - 1 <= seconds)
      by (subst seconds; lia).
    specialize (Hcount Hle). cbn zeta in Hcount.
    cbn [pollPromise pollEffects pollClock app] in Hcount. exact Hcount. }
  split.
  { intros m Hm p. destruct (Hruns m Hm) as (_ & _ & Hp & He & _).
    split; [done|]. subst p. rewrite He. done. }
  destruct (Hruns s (le_n s)) as (Hi & Harmed & Hp & He & Hclock).
  assert (Hfinal : final
    = pollWaiting w message content seconds
        (pollingPromptData w message content seconds start s)).
  { subst final. unfold pollingPromptData.
    replace (S s + extra)%nat with (s + S extra)%nat by lia.
    rewrite pollRun_add.
    fold (pollingPromptData w message content seconds start s).
    cbn [pollRun]. rewrite Harmed.
    rewrite pollRun_disarmed; [done|].
    rewrite pollWaiting_deadline; [done|done|done|]. rewrite Hi.
    subst seconds. lia. }
  rewrite Hfinal.
  rewrite pollWaiting_deadline by (auto; rewrite Hi; subst seconds; lia).
  cbn [pollPromise pollArmed pollEffects pollClock].
  rewrite Hp, He. split; [done|]. split; [done|]. split.
  - eexists. split; [reflexivity|]. split.
    + destruct (cacheGet _ _); [by right|by left].
    + intros Hcached. by rewrite Hcached.
  - destruct (cacheGet _ _); lia.
Qed.

Lemma pollingPromptData_counts_down_witness :
  let final := pollingPromptData silentWorld someMessage "Pick one" 2 0 3 in
  pollPromise final = Resolved true
  ∧ (0 + 1000 * 2 <= pollClock final)%N
  ∧ pollEffects (pollingPromptData silentWorld someMessage "Pick one" 2 0 2)
    = [MessageEdit "900" "Pick one (1s)"; MessageEdit "900" "Pick one (0s)"].
Proof.
  intros final.
  destruct (pollingPromptData_counts_down silentWorld someMessage "Pick one"
              2 0 0%N) as (Hruns & Hp & _ & _ & Hclock);
    [lia|vm_compute; discriminate|by intros t|].
  split; [exact Hp|]. split; [exact Hclock|].
  destruct (Hruns 2%nat) as [_ He]; [lia|exact He].
Defined.

(** X18. With any deadline other than 0 the loop ends, whatever its
    collaborators do: after at most max(seconds, 0) + 1 runs of [waiting]
    the promise is resolved true and no timer is armed. *)
Theorem pollingPromptData_terminates w message content seconds start extra :
  seconds ≠ 0 →
  let final :=
    pollingPromptData w message content seconds start
      (Z.to_nat (Z.max seconds 0) + 1 + extra) in
  pollPromise final = Resolved true ∧ pollArmed final = false.
Proof.
  intros Hs final. subst final. unfold pollingPromptData.
  rewrite <- Nat.add_assoc, pollRun_add.
  match goal with |- context [pollRun _ _ _ _ (Z.to_nat _) ?q] =>
    destruct (pollRun_progress w message content seconds
                (Z.to_nat (Z.max seconds 0)) q eq_refl eq_refl)
      as [[Ha Hp]|(Ha & Hp & Hi)]
  end.
  - rewrite pollRun_disarmed by done. done.
  - cbn [pollI] in Hi. cbn [Nat.add pollRun]. rewrite Ha.
    match goal with |- context [pollWaiting _ _ _ _ ?q] =>
      destruct (pollWaiting_past_deadline w message content seconds q)
        as [Ha' Hp']; [done|rewrite Hi; lia|done|]
    end.
    rewrite pollRun_disarmed by done. done.
Qed.

Lemma pollingPromptData_terminates_witness :
  pollPromise (pollingPromptData answeredWorld someMessage "Pick one" 5 0 6)
  = Resolved true
  ∧ pollArmed (pollingPromptData answeredWorld someMessage "Pick one" 5 0 6)
    = false.
Proof.
  apply (pollingPromptData_terminates answeredWorld someMessage "Pick one"
           5 0 0). lia.
Defined.

(** X19. A negative deadline is one that is already over: when the value
    is not set at the start, the first run of [waiting] ends the loop at
    once, without any countdown, with the plain-content edit (and the
    notice if the channel is cached), and resolves true. *)
Theorem pollingPromptData_negative_deadline
    w message content seconds start extra :
  seconds < 0 →
  hasValueAt w message start = false →
  let final :=
    pollingPromptData w message content seconds start (1 + extra) in
  pollPromise final = Resolved true ∧ pollArmed final = false
  ∧ pollEffects final
    = MessageEditClear (msgId message) content ::
      (if cacheGet (clientAt w (start + latency w start)%N)
            (msgChannelId message)
       then [ChannelSend (msgChannelId message) "Timeout reached"]
       else []).
Proof.
  intros Hneg Hv final. subst final. unfold pollingPromptData.
  cbn [Nat.add pollRun pollArmed].
  rewrite pollWaiting_deadline by (auto; cbn; lia).
  by rewrite pollRun_disarmed.
Qed.

Lemma pollingPromptData_negative_deadline_witness :
  pollEffects (pollingPromptData silentWorld someMessage "Pick one" (-2) 0 1)
  = [MessageEditClear "900" "Pick one"; ChannelSend "77" "Timeout reached"].
Proof.
  destruct (pollingPromptData_negative_deadline silentWorld someMessage
              "Pick one" (-2) 0 0) as (_ & _ & He); [lia|reflexivity|].
  exact He.
Defined.

(** X20. Between the runs of [waiting]: after any number of completed
    runs, in any world and for any deadline, the promise is either pending
    with the timer of the next run armed, or resolved true with no timer
    armed (no completed run rejects it, and none arms a timer once it is
    resolved); and all that the completed runs have done on Discord is edit
    the message of the loop and send 'Timeout reached' to the channel of
    that message. Nothing is said of the time within a run, while an edit
    or a send is awaited. *)
Theorem pollingPromptData_invariant w message content seconds start n :
  let p := pollingPromptData w message content seconds start n in
  pollSettledOrArmed p ∧ Forall (onMessage message) (pollEffects p).
Proof.
  intros p. subst p. unfold pollingPromptData. split.
  - match goal with |- context [pollRun _ _ _ _ n ?q] =>
      destruct (pollRun_progress w message content seconds n q
                  eq_refl eq_refl) as [[Ha Hp]|(Ha & Hp & _)]
    end; [by right|by left].
  - by apply pollRun_onMessage.
Qed.

(** ** placeholderLoading: any collaborators *)

Section MoreLoaderFacts.
Context (placeholder : Message) (placeholderMatchingId txt : string).

Local Abbreviation dotted := (dottedEdit placeholder txt).

Lemma plain_dotted : dotted (MessageEdit (msgId placeholder) txt).
Proof. exists 0. split; [lia|]. by rewrite withDots_0. Qed.

Lemma loadWaiting_bounded l :
  0 <= loadI l <= 3 → Forall dotted (loadEffects l) →
  let l' := loadWaiting placeholder placeholderMatchingId txt l in
  0 <= loadI l' <= 3 ∧ Forall dotted (loadEffects l')
  ∧ length (loadEffects l') = S (length (loadEffects l)).
Proof.
  intros Hi Hall l'. subst l'. unfold loadWaiting.
  assert (Hnext : 0 <= (if 3 <? loadI l + 1 then 0 else loadI l + 1) <= 3).
  { destruct (Z.ltb_spec 3 (loadI l + 1)); lia. }
  destruct (negb _); cbn [loadI loadEffects];
    (split; [done|]); rewrite length_app, Nat.add_1_r;
    (split; [|done]); apply Forall_app; (split; [done|]);
    constructor; try done.
  - apply plain_dotted.
  - by eexists.
Qed.

Lemma loadTimer_bounded f l :
  0 <= loadI l <= 3 → Forall dotted (loadEffects l) →
  let l' := loadTimer placeholder placeholderMatchingId txt (interfere f l) in
  0 <= loadI l' <= 3 ∧ Forall dotted (loadEffects l')
  ∧ length (loadEffects l') = S (length (loadEffects l)).
Proof.
  intros Hi Hall l'. subst l'. unfold loadTimer.
  destruct (matchingPresent _ _).
  - by apply (loadWaiting_bounded (interfere f l)).
  - cbn [loadI loadEffects interfere]. split; [done|].
    rewrite length_app, Nat.add_1_r. split; [|done].
    apply Forall_app. split; [done|]. constructor; [|done].
    apply plain_dotted.
Qed.

Lemma loadRun_bounded env n : ∀ k l,
  0 <= loadI l <= 3 → Forall dotted (loadEffects l) →
  let l' := loadRun placeholder placeholderMatchingId txt env k n l in
  0 <= loadI l' <= 3 ∧ Forall dotted (loadEffects l')
  ∧ (length (loadEffects l) <= length (loadEffects l')
     <= length (loadEffects l) + n)%nat.
Proof.
  induction n as [|n IH]; intros k l Hi Hall; cbn zeta.
  { simpl. split; [done|]. split; [done|]. lia. }
  cbn [loadRun]. destruct (loadArmed l); [|split; [done|split; [done|lia]]].
  destruct (loadTimer_bounded (env k) l Hi Hall) as (H1 & H2 & H3).
  destruct (IH (S k) _ H1 H2) as (H4 & H5 & H6).
  split; [done|]. split; [done|]. lia.
Qed.

(** X21. Whatever the collaborators do to the state and however long the
    loop runs, every edit that [placeholderLoading] makes sets the
    placeholder to the base text followed by at most three dots; the first
    run makes one edit and every timer at most one more. *)
Theorem placeholderLoading_edits_bounded env n st :
  let l := loadRun placeholder placeholderMatchingId txt env 0 n
             (placeholderLoading placeholder placeholderMatchingId txt st) in
  Forall (λ e, ∃ d, 0 <= d <= 3
                    ∧ e = MessageEdit (msgId placeholder) (withDots txt d))
    (loadEffects l)
  ∧ (1 <= length (loadEffects l) <= 1 + n)%nat
  ∧ 0 <= loadI l <= 3.
Proof.
  intros l. subst l. unfold placeholderLoading.
  match goal with |- context [loadWaiting _ _ _ ?q] =>
    destruct (loadWaiting_bounded q) as (H1 & H2 & H3);
      [simpl; lia|by constructor|]
  end.
  match goal with |- context [loadRun _ _ _ _ _ _ ?q] =>
    destruct (loadRun_bounded env n 0%nat q H1 H2) as (H4 & H5 & H6)
  end.
  rewrite H3 in H6. simpl in H6. split; [exact H5|]. split; [lia|done].
Qed.
End MoreLoaderFacts.
